(** * EDDAC chaincode: the attribute-hiding vector engine and the
      access-decision transaction

    A shallow embedding of the two Fabric contracts of the repository,
    [sc1_public.js] (contract SC1 on the public channel) and [sc2_attr.js]
    (contract SC2 on the attribute channel), with the properties their
    specification states about them.

    - BigInt values are [Z]; the BigInt operator [%] truncates towards
      zero and is [Z.rem].
    - A vector crosses the contract boundary as a JSON array of decimal
      strings; [BigInt] and [toString] below are the two conversions.
    - The world state is a finite map from composite keys to the documents
      stored under them.  A contract method is a computation that threads
      the world state and may throw. *)

From Stdlib Require Import ZArith Lia String Ascii List.
From Stdlib Require Import DecimalString DecimalZ.
From stdpp Require Import base option list strings gmap sorting.

Local Open Scope string_scope.
Local Open Scope Z_scope.

(** ** Field arithmetic (the head of both contracts) *)

Definition PRIME_P : Z :=
  21888242871839275222246405745257275088548364400416034343698204186575808495617.

(** [const r = x % PRIME_P; return r >= 0n ? r : r + PRIME_P;] *)
Definition modP (x : Z) : Z :=
  let r := Z.rem x PRIME_P in
  if 0 <=? r then r else r + PRIME_P.

(** ** Decimal strings and BigInt *)

(** [x.toString()] of a BigInt: the decimal digits, with a leading minus
    sign for a negative value. *)
Definition toString (x : Z) : string := NilZero.string_of_int (Z.to_int x).

(** A non-empty run of decimal digits. *)
Definition decimalDigits (s : string) : option Z :=
  match s with
  | EmptyString => None
  | String _ _ => Z.of_uint <$> NilEmpty.uint_of_string s
  end.

(** [BigInt(s)] of a string: the empty string is [0n]; an optional sign
    followed by decimal digits is that integer; [None] is the SyntaxError.
    The fragment covered is the signed decimal literals, which is how vector
    elements cross the contract boundary; white space around the literal and
    the radix prefixes that BigInt also accepts are not covered, so [None]
    is only ever used below as "no value known", never to show a failure. *)
Definition BigInt (s : string) : option Z :=
  match s with
  | EmptyString => Some 0
  | String c s' =>
      if Ascii.eqb c "-" then Z.opp <$> decimalDigits s'
      else if Ascii.eqb c "+" then decimalDigits s'
      else decimalDigits s
  end.

(** ** Errors and the transaction monad *)

Inductive error : Type :=
| NoSVector (userId : string)          (* No S vector for user ... *)
| NoDataMeta (objectId : string)       (* No DATA meta for object ... *)
| LengthMismatch (s p : nat)           (* Inner product length mismatch *)
| NoHiddenAttributes (userId : string) (* No hidden attributes for user ... *)
| UserExists (userId : string)         (* User ... already exists *)
| SyntaxError (s : string)             (* BigInt of a malformed string *)
| TypeError.                           (* a field of the wrong shape *)

Inductive result (A : Type) : Type :=
| Ok (a : A)
| Err (e : error).
Arguments Ok {A} a.
Arguments Err {A} e.

(** [innerProductMod]: the length guard, then the accumulation loop
    [sum = modP(sum + modP(modP(S[i]) * modP(P[i])))] for [i = 0 .. S.length-1]. *)
Fixpoint innerProductLoop (S P : list Z) (sum : Z) : Z :=
  match S, P with
  | s :: S', p :: P' =>
      innerProductLoop S' P' (modP (sum + modP (modP s * modP p)))
  | _, _ => sum
  end.

Definition innerProductMod (S P : list Z) : result Z :=
  if Nat.eqb (length S) (length P) then Ok (innerProductLoop S P 0)
  else Err (LengthMismatch (length S) (length P)).

(** ** The ledger *)

Definition NUL : ascii := Ascii.zero.

(** [ctx.stub.createCompositeKey(objectType, attributes)]: the separator
    U+0000, the object type, the separator, then every attribute followed by
    the separator.  The stub throws on an empty object type or attribute;
    this is the key of parts it accepts, and a statement below that would
    not hold of a call the stub refuses carries the hypothesis that the id
    is not empty. *)
Definition createCompositeKey (objectType : string) (attributes : list string)
  : string :=
  String NUL (objectType +:+
    String NUL (foldr (fun a k => a +:+ String NUL k) EmptyString attributes)).

(** The JSON documents the two contracts store.  A document is kept as the
    object that [JSON.stringify] serialises and [JSON.parse] gives back. *)

(** [{ objectId, ownerId, policyVector, c0, addressCipher, ctKeyPart }] *)
Record DataMeta : Type := {
  metaObjectId : string;
  metaOwnerId : string;
  policyVector : list string;
  c0 : string;
  addressCipher : string;
  ctKeyPart : string }.

(** [{ userId, S }] *)
Record UserVec : Type := {
  vecUserId : string;
  vecS : list string }.

(** [{ objectId, requesterId, allowed, innerProduct, txId, timestamp }].
    [timestamp] is the instant, in milliseconds, whose ISO-8601 text the
    record carries. *)
Record AccessRecord : Type := {
  objectId : string;
  requesterId : string;
  allowed : bool;
  innerProduct : string;
  txId : string;
  timestamp : Z }.

(** [{ userId, category, chValue, rValue, aaenId }] *)
Record HiddenAttr : Type := {
  userId : string;
  category : string;
  chValue : string;
  rValue : string;
  aaenId : string }.

Inductive document : Type :=
| DocMeta (m : DataMeta)
| DocUserVec (r : UserVec)
| DocAccess (a : AccessRecord)
| DocAttr (h : HiddenAttr).

(** What the stub gives a transaction besides the world state:
    [getTxID()] and [getTxTimestamp()], the latter as its seconds and nanos.
    A proposal timestamp lies between the years 1 and 9999, well inside the
    range of [Date], so rendering it never fails. *)
Record TxContext : Type := {
  txID : string;
  txSeconds : Z;
  txNanos : Z }.

(** A contract method runs on the world state and either returns or throws;
    the world state it leaves is the one at the return or at the throw. *)
Definition Tx (A : Type) : Type :=
  gmap string document -> result A * gmap string document.

Definition throw {A} (e : error) : Tx A := fun w => (Err e, w).

Definition getState (key : string) : Tx (option document) :=
  fun w => (Ok (w !! key), w).

Definition putState (key : string) (d : document) : Tx unit :=
  fun w => (Ok tt, <[key := d]> w).

#[global] Instance Tx_ret : MRet Tx := fun A a w => (Ok a, w).

#[global] Instance Tx_bind : MBind Tx := fun A B f m w =>
  match m w with
  | (Ok a, w') => f a w'
  | (Err e, w') => (Err e, w')
  end.

(** A pure step that may throw. *)
Definition liftResult {A} (r : result A) : Tx A := fun w => (r, w).

(** [getStateByPartialCompositeKey(objectType, attributes)], consumed to the
    end: the entries whose key starts with the partial composite key, in the
    order of their keys. *)
Definition keyLe (a b : string * document) : Prop := String.le a.1 b.1.

#[global] Instance keyLe_dec : RelDecision keyLe.
Proof. intros a b. unfold keyLe. apply _. Defined.

Definition getStateByPartialCompositeKey
    (objectType : string) (attributes : list string)
  : Tx (list (string * document)) :=
  fun w =>
    let pre := createCompositeKey objectType attributes in
    (Ok (merge_sort keyLe
           (filter (fun kv => String.prefix pre kv.1 = true) (map_to_list w))),
     w).

(** [xs.map(x => BigInt(x))], throwing at the first malformed element. *)
Fixpoint mapBigInt (xs : list string) : result (list Z) :=
  match xs with
  | [] => Ok []
  | x :: xs' =>
      match BigInt x with
      | None => Err (SyntaxError x)
      | Some v =>
          match mapBigInt xs' with
          | Ok vs => Ok (v :: vs)
          | Err e => Err e
          end
      end
  end.

(** ** Contract SC1 ([sc1_public.js]) *)

(** [xs.map(x => { let v = BigInt(x); v = modP(v); return v.toString(); })] *)
Definition normalizeStrings (xs : list string) : result (list string) :=
  match mapBigInt xs with
  | Ok vs => Ok (map (fun v => toString (modP v)) vs)
  | Err e => Err e
  end.

Definition CreateVec (objectId ownerId : string) (policyVectorJson : list string)
    (c0Base64 addressCipherBase64 ctKeyPartBase64 : string) : Tx DataMeta :=
  P_norm ← liftResult (normalizeStrings policyVectorJson);
  let meta := {| metaObjectId := objectId; metaOwnerId := ownerId;
                 policyVector := P_norm; c0 := c0Base64;
                 addressCipher := addressCipherBase64;
                 ctKeyPart := ctKeyPartBase64 |} in
  let key := createCompositeKey "DATA" [objectId] in
  putState key (DocMeta meta);;
  mret meta.

Definition GetDataMeta (objectId : string) : Tx document :=
  let key := createCompositeKey "DATA" [objectId] in
  data ← getState key;
  match data with
  | None => throw (NoDataMeta objectId)
  | Some d => mret d
  end.

Definition StoreUserVec (userId : string) (sVectorJson : list string)
  : Tx UserVec :=
  S_norm ← liftResult (normalizeStrings sVectorJson);
  let rec := {| vecUserId := userId; vecS := S_norm |} in
  let key := createCompositeKey "S" [userId] in
  putState key (DocUserVec rec);;
  mret rec.

Definition ReadUserVec (userId : string) : Tx document :=
  let key := createCompositeKey "S" [userId] in
  data ← getState key;
  match data with
  | None => throw (NoSVector userId)
  | Some d => mret d
  end.

(** [Srec.S.map(...)] and [meta.policyVector.map(...)]: a document without
    the field gives [undefined], on which [.map] is a TypeError. *)
Definition fieldS (d : document) : result (list string) :=
  match d with
  | DocUserVec r => Ok (vecS r)
  | _ => Err TypeError
  end.

Definition fieldPolicyVector (d : document) : result (list string) :=
  match d with
  | DocMeta m => Ok (policyVector m)
  | _ => Err TypeError
  end.

(** [millis = sec * 1000 + Math.floor(nanos / 1e6)]; both writes and the
    return value use the one object [access]. *)
Definition DecTest (ctx : TxContext) (objectId requesterId : string)
  : Tx AccessRecord :=
  SrecJson ← ReadUserVec requesterId;
  Sstr ← liftResult (fieldS SrecJson);
  S ← liftResult (mapBigInt Sstr);
  metaJson ← GetDataMeta objectId;
  Pstr ← liftResult (fieldPolicyVector metaJson);
  P ← liftResult (mapBigInt Pstr);
  ip ← liftResult (innerProductMod S P);
  let allowed := ip =? 0 in
  let millis := txSeconds ctx * 1000 + txNanos ctx / 1000000 in
  let access := {| objectId := objectId; requesterId := requesterId;
                   allowed := allowed; innerProduct := toString ip;
                   txId := txID ctx; timestamp := millis |} in
  let histKey :=
    createCompositeKey "ACCESS" [objectId; requesterId; txID ctx] in
  putState histKey (DocAccess access);;
  let lastKey := createCompositeKey "ACCESS_LAST" [objectId; requesterId] in
  putState lastKey (DocAccess access);;
  mret access.

(** ** Contract SC2 ([sc2_attr.js]) *)

Definition CreateHidAtt (userId category chValue rValue aaenId : string)
  : Tx HiddenAttr :=
  let key := createCompositeKey "ATTR" [userId; category] in
  let attr := {| userId := userId; category := category; chValue := chValue;
                 rValue := rValue; aaenId := aaenId |} in
  putState key (DocAttr attr);;
  mret attr.

(** The iterator is consumed to the end and every value is pushed. *)
Definition GetHiddenAttributes (userId : string) : Tx (list document) :=
  entries ← getStateByPartialCompositeKey "ATTR" [userId];
  mret (map snd entries).

(** [Array.prototype.sort(compareFn)]: a stable sort; [a] stays before [b]
    when [compareFn(a, b) <= 0]. *)
Section Sort.
Context {A : Type} (compareFn : A -> A -> Z).

Fixpoint sortInsert (x : A) (l : list A) : list A :=
  match l with
  | [] => [x]
  | y :: l' =>
      if compareFn x y <=? 0 then x :: y :: l' else y :: sortInsert x l'
  end.

Definition sort (l : list A) : list A := foldr sortInsert [] l.
End Sort.

(** The field reads [a.category] and [a.chValue] of a scanned document. *)
Fixpoint asAttrs (ds : list document) : result (list HiddenAttr) :=
  match ds with
  | [] => Ok []
  | DocAttr h :: ds' =>
      match asAttrs ds' with
      | Ok hs => Ok (h :: hs)
      | Err e => Err e
      end
  | _ :: _ => Err TypeError
  end.

(** [for (const v of chValues) prodAll = modP(prodAll * v)] from [1n]. *)
Definition prodAll (chValues : list Z) : Z :=
  fold_left (fun acc v => modP (acc * v)) chValues 1.

(** The double loop [for i in 0..n-1, for j in i+1..n-1] pushing
    [modP(chValues[i] * chValues[j])]. *)
Definition pairwise (chValues : list Z) : list Z :=
  let n := length chValues in
  flat_map
    (fun i =>
       map (fun j => modP (nth i chValues 0 * nth j chValues 0))
           (seq (i + 1) (n - (i + 1))))
    (seq 0 n).

(** [S = [prodAll, ...pairwise, ...singles, 1n]] *)
Definition buildS (chValues : list Z) : list Z :=
  prodAll chValues :: pairwise chValues ++ chValues ++ [1].

Section CreateUserVec.
(** [String.prototype.localeCompare], the collation of the host, is not
    part of the repository: the contract is taken over it. *)
Variable localeCompare : string -> string -> Z.

Definition sortByCategory (attrs : list HiddenAttr) : list HiddenAttr :=
  sort (fun a b => localeCompare (category a) (category b)) attrs.

Definition CreateUserVec (userId : string) : Tx UserVec :=
  attrsJson ← GetHiddenAttributes userId;
  match attrsJson with
  | [] => throw (NoHiddenAttributes userId)
  | _ :: _ =>
      attrs ← liftResult (asAttrs attrsJson);
      let attrs := sortByCategory attrs in
      raw ← liftResult (mapBigInt (map chValue attrs));
      let chValues := map modP raw in
      let S := buildS chValues in
      let Sstr := map toString S in
      let key := createCompositeKey "USERVEC" [userId] in
      let rec := {| vecUserId := userId; vecS := Sstr |} in
      putState key (DocUserVec rec);;
      mret rec
  end.
End CreateUserVec.

(** ** SC1: the registry of authority keys *)

(** [CreatePKCH] stores its payload as it comes and [ReadPKCH] returns the
    stored bytes, so the registry is kept as the bytes under each key.  The
    ledger records a [putState] of no bytes as the deletion of the key. *)
Definition putBytes (key bytes : string) (w : gmap string string)
  : gmap string string :=
  if Nat.eqb (String.length bytes) 0 then delete key w else <[key := bytes]> w.

Definition CreatePKCH (index pkCHJson : string) (w : gmap string string)
  : string * gmap string string :=
  let key := createCompositeKey "PKCH" [index] in
  (pkCHJson, putBytes key pkCHJson w).

(** [None] is the throw [No PKCH at index ...], for a key never written and
    for a key that holds no bytes ([!data || data.length === 0]). *)
Definition ReadPKCH (index : string) (w : gmap string string)
  : option string :=
  let key := createCompositeKey "PKCH" [index] in
  match w !! key with
  | None => None
  | Some data => if Nat.eqb (String.length data) 0 then None else Some data
  end.

(** ** SC2: the user records *)

(** [CreateUser] stores the document [{ userId }], kept here as its one
    field; the text of such a document is never empty, so a record that is
    there always counts as existing. *)
Definition CreateUser (userId : string) (w : gmap string string)
  : result string * gmap string string :=
  let key := createCompositeKey "USER" [userId] in
  match w !! key with
  | Some _ => (Err (UserExists userId), w)
  | None => (Ok userId, <[key := userId]> w)
  end.

(** ** Definitions used to state the properties *)

(** [ip = sum_i normalize(S[i]) * normalize(P[i]) mod p], as the
    specification writes it. *)
Definition sumProducts (S P : list Z) : Z :=
  foldr Z.add 0 (zip_with (fun s p => modP s * modP p) S P).

Definition innerProductSpec (S P : list Z) : Z := sumProducts S P mod PRIME_P.

(** The record a decision builds from the inner product [ip]. *)
Definition decisionRecord (ctx : TxContext) (o r : string) (ip : Z)
  : AccessRecord :=
  {| objectId := o; requesterId := r; allowed := ip =? 0;
     innerProduct := toString ip; txId := txID ctx;
     timestamp := txSeconds ctx * 1000 + txNanos ctx / 1000000 |}.

Definition histKeyOf (ctx : TxContext) (o r : string) : string :=
  createCompositeKey "ACCESS" [o; r; txID ctx].

Definition lastKeyOf (o r : string) : string :=
  createCompositeKey "ACCESS_LAST" [o; r].

(** A ledger of the public channel to run the statements on: the user
    vector of [alice] and the policy vector of [doc1], stored by the
    contract itself. *)
Definition exampleLedger : gmap string document :=
  snd ((StoreUserVec "alice" ["11"; "-3"];;
        CreateVec "doc1" "owner1" ["3"; "11"] "YzA=" "YWRkcg==" "Y3Q=") ∅).

Definition exampleCtx : TxContext :=
  {| txID := "tx1"; txSeconds := 1700000000; txNanos := 123456789 |}.

Definition exampleCtx' : TxContext :=
  {| txID := "tx2"; txSeconds := 1700000005; txNanos := 0 |}.

(** The same with a policy vector one element short, and with both vectors
    empty. *)
Definition exampleLedgerShort : gmap string document :=
  snd ((StoreUserVec "alice" ["1"; "2"; "3"; "4"; "5"];;
        CreateVec "doc1" "owner1" ["1"; "2"; "3"; "4"] "YzA=" "YWRkcg==" "Y3Q=") ∅).

Definition exampleLedgerEmpty : gmap string document :=
  snd ((StoreUserVec "alice" [];;
        CreateVec "doc1" "owner1" [] "YzA=" "YWRkcg==" "Y3Q=") ∅).

(** A stored vector element is canonical when it is the decimal text of a
    residue in [0, p). *)
Definition canonical (s : string) : Prop :=
  exists v, 0 <= v < PRIME_P /\ s = toString v.

(** Every user vector under an [S] key holds canonical elements only. *)
Definition storedCanonical (w : gmap string document) : Prop :=
  forall u rec,
    w !! createCompositeKey "S" [u] = Some (DocUserVec rec) ->
    Forall canonical (vecS rec).

(** The comparison vector as the specification words it, over the
    normalized values [ch] in canonical order: the field product of all of
    them; the products [ch[i] * ch[j]] over the index pairs [i < j] in the
    order (0,1), (0,2), ..., (0,n-1), (1,2), ...; the singles; the
    constant [1]. *)
Definition fieldProduct (ch : list Z) : Z := foldr Z.mul 1 ch mod PRIME_P.

Definition indexPairs (n : nat) : list (nat * nat) :=
  filter (fun ij : nat * nat => (ij.1 < ij.2)%nat)
         (list_prod (seq 0 n) (seq 0 n)).

Definition pairProducts (ch : list Z) : list Z :=
  map (fun ij : nat * nat => (nth ij.1 ch 0 * nth ij.2 ch 0) mod PRIME_P)
      (indexPairs (length ch)).

Definition userVectorSpec (ch : list Z) : list Z :=
  fieldProduct ch :: pairProducts ch ++ ch ++ [1].

(** The normalized field value of an attribute's [chValue]. *)
Definition chOf (a : HiddenAttr) : Z := modP (default 0 (BigInt (chValue a))).

(** Ordinary lexicographic string order (by character code), as a
    comparator. *)
Definition codeUnitCompare (a b : string) : Z :=
  match String.compare a b with
  | Lt => -1
  | Eq => 0
  | Gt => 1
  end.

(** The collation [localeCompare] applies by default on a host with ICU,
    on strings of ASCII letters: alphabetical without regard to case, and at
    a tie the lower-case letter first.  It stands for [localeCompare] on
    such strings only. *)
Definition toLower (c : ascii) : ascii :=
  let n := nat_of_ascii c in
  if (65 <=? n)%nat && (n <=? 90)%nat then ascii_of_nat (n + 32) else c.

Fixpoint lowerCase (s : string) : string :=
  match s with
  | EmptyString => EmptyString
  | String c s' => String (toLower c) (lowerCase s')
  end.

Definition collateLetters (a b : string) : Z :=
  match String.compare (lowerCase a) (lowerCase b) with
  | Lt => -1
  | Gt => 1
  | Eq => codeUnitCompare b a
  end.

(** Ledgers of the attribute channel to run the statements on: [bob] with
    the categories [c0] and [c1], written last first; [bob] with the
    categories [a] and [B]. *)
Definition exampleAttrLedger : gmap string document :=
  snd ((CreateHidAtt "bob" "c1" "1001" "2001" "AA1";;
        CreateHidAtt "bob" "c0" "1000" "2000" "AA1") ∅).

Definition exampleMixedCaseLedger : gmap string document :=
  snd ((CreateHidAtt "bob" "a" "3" "2000" "AA1";;
        CreateHidAtt "bob" "B" "2" "2001" "AA1") ∅).

Definition attrLowerA : HiddenAttr :=
  {| userId := "bob"; category := "a"; chValue := "3"; rValue := "2000";
     aaenId := "AA1" |}.

Definition attrUpperB : HiddenAttr :=
  {| userId := "bob"; category := "B"; chValue := "2"; rValue := "2001";
     aaenId := "AA1" |}.

(** The inner product of the integers as they are, before any reduction. *)
Definition rawInnerProduct (S P : list Z) : Z :=
  foldr Z.add 0 (zip_with Z.mul S P).

(** What a scan by partial composite key returns, and an id without the
    separator U+0000 in it. *)
Definition entriesWithPrefix (pre : string) (w : gmap string document)
  : list (string * document) :=
  merge_sort keyLe
    (filter (fun kv : string * document => String.prefix pre kv.1 = true)
            (map_to_list w)).

Fixpoint nulFree (s : string) : bool :=
  match s with
  | EmptyString => true
  | String c s' => negb (Ascii.eqb c NUL) && nulFree s'
  end.

(** * Properties *)

(** ** Field arithmetic: properties *)

Lemma PRIME_P_pos : 0 < PRIME_P.
Proof. reflexivity. Qed.

Lemma modP_mod (x : Z) : modP x = x mod PRIME_P.
Proof.
  unfold modP. pose proof PRIME_P_pos as Hp.
  pose proof (Z.quot_rem' x PRIME_P) as Hqr.
  destruct (Z.leb_spec 0 (Z.rem x PRIME_P)) as [Hr|Hr].
  - apply Z.mod_unique with (q := Z.quot x PRIME_P); [left|exact Hqr].
    split; [exact Hr|].
    destruct (Z_le_gt_dec 0 x) as [Hx|Hx].
    + apply Z.rem_bound_pos; lia.
    + pose proof (Z.rem_bound_pos_neg x PRIME_P Hp ltac:(lia)). lia.
  - apply Z.mod_unique with (q := Z.quot x PRIME_P - 1); [left|lia].
    destruct (Z_le_gt_dec 0 x) as [Hx|Hx].
    + pose proof (Z.rem_bound_pos x PRIME_P Hx Hp). lia.
    + pose proof (Z.rem_bound_pos_neg x PRIME_P Hp ltac:(lia)). lia.
Qed.

Lemma modP_range (x : Z) : 0 <= modP x < PRIME_P.
Proof. rewrite modP_mod. apply Z.mod_pos_bound, PRIME_P_pos. Qed.

Lemma modP_small (x : Z) : 0 <= x < PRIME_P -> modP x = x.
Proof. intros Hx. rewrite modP_mod. now apply Z.mod_small. Qed.

Lemma modP_idem (x : Z) : modP (modP x) = modP x.
Proof. apply modP_small, modP_range. Qed.

(** ** Decimal strings: [BigInt] reads back what [toString] prints *)

Lemma decimalDigits_string_of_uint (d : Decimal.uint) :
  d <> Decimal.Nil ->
  decimalDigits (NilEmpty.string_of_uint d) = Some (Z.of_uint d).
Proof.
  intros Hd. unfold decimalDigits.
  pose proof (NilEmpty.usu d) as Hu.
  destruct d; try congruence; simpl in *; now rewrite Hu.
Qed.

Lemma BigInt_string_of_uint (d : Decimal.uint) :
  d <> Decimal.Nil ->
  BigInt (NilEmpty.string_of_uint d) = Some (Z.of_uint d).
Proof.
  intros Hd. rewrite <- (decimalDigits_string_of_uint d Hd).
  destruct d; try congruence; reflexivity.
Qed.

Lemma to_uint_nonnil (p : positive) : Pos.to_uint p <> Decimal.Nil.
Proof.
  intros H. pose proof (DecimalPos.Unsigned.of_to p) as Hp.
  rewrite H in Hp. discriminate.
Qed.

Lemma of_uint_to_uint (p : positive) : Z.of_uint (Pos.to_uint p) = Z.pos p.
Proof. exact (DecimalZ.of_to (Z.pos p)). Qed.

Lemma NilZero_string_of_uint_nonnil (d : Decimal.uint) :
  d <> Decimal.Nil -> NilZero.string_of_uint d = NilEmpty.string_of_uint d.
Proof. destruct d; [congruence|reflexivity..]. Qed.

Lemma BigInt_toString (x : Z) : BigInt (toString x) = Some x.
Proof.
  destruct x as [|p|p]; unfold toString; simpl.
  - reflexivity.
  - rewrite NilZero_string_of_uint_nonnil by apply to_uint_nonnil.
    rewrite BigInt_string_of_uint by apply to_uint_nonnil.
    now rewrite of_uint_to_uint.
  - rewrite NilZero_string_of_uint_nonnil by apply to_uint_nonnil.
    rewrite decimalDigits_string_of_uint by apply to_uint_nonnil.
    simpl. now rewrite of_uint_to_uint.
Qed.

Lemma toString_inj (x y : Z) : toString x = toString y -> x = y.
Proof.
  intros H. apply (f_equal BigInt) in H.
  rewrite !BigInt_toString in H. congruence.
Qed.

Lemma mapBigInt_toString (xs : list Z) : mapBigInt (map toString xs) = Ok xs.
Proof.
  induction xs as [|x xs IH]; simpl; [reflexivity|].
  now rewrite BigInt_toString, IH.
Qed.

Lemma mapBigInt_length (xs : list string) (vs : list Z) :
  mapBigInt xs = Ok vs -> length vs = length xs.
Proof.
  revert vs. induction xs as [|x xs IH]; simpl; intros vs H.
  - now inversion H.
  - destruct (BigInt x); [|discriminate].
    destruct (mapBigInt xs) as [vs'|]; [|discriminate].
    inversion H; subst. simpl. f_equal. now apply IH.
Qed.

Lemma normalizeStrings_ok (xs : list string) (vs : list Z) :
  mapBigInt xs = Ok vs ->
  normalizeStrings xs = Ok (map (fun v => toString (modP v)) vs).
Proof. intros H. unfold normalizeStrings. now rewrite H. Qed.

Lemma mapBigInt_normalized (vs : list Z) :
  mapBigInt (map (fun v => toString (modP v)) vs) = Ok (map modP vs).
Proof. rewrite <- (map_map modP toString). apply mapBigInt_toString. Qed.

(** ** The inner product: the loop against the sum of the specification *)

Lemma innerProductLoop_spec (S P : list Z) (sum : Z) :
  0 <= sum < PRIME_P ->
  innerProductLoop S P sum = (sum + sumProducts S P) mod PRIME_P.
Proof.
  revert P sum. induction S as [|s S IH]; intros [|p P] sum Hsum; simpl;
    try (unfold sumProducts; simpl; rewrite Z.add_0_r;
         symmetry; now apply Z.mod_small).
  rewrite IH by apply modP_range.
  rewrite !modP_mod. unfold sumProducts. simpl.
  rewrite Zplus_mod_idemp_r, Zplus_mod_idemp_l.
  f_equal. rewrite !modP_mod. lia.
Qed.

Lemma innerProductMod_spec (S P : list Z) :
  length S = length P -> innerProductMod S P = Ok (innerProductSpec S P).
Proof.
  intros Hlen. unfold innerProductMod. rewrite Hlen, Nat.eqb_refl.
  rewrite innerProductLoop_spec by (pose proof PRIME_P_pos; lia).
  reflexivity.
Qed.

Lemma innerProductMod_mismatch (S P : list Z) :
  length S <> length P ->
  innerProductMod S P = Err (LengthMismatch (length S) (length P)).
Proof.
  intros Hlen. unfold innerProductMod.
  now apply Nat.eqb_neq in Hlen as ->.
Qed.

(** ** Composite keys *)

Lemma string_length_app (a b : string) :
  String.length (a +:+ b) = (String.length a + String.length b)%nat.
Proof. induction a as [|x a IH]; simpl; [reflexivity|now rewrite IH]. Qed.

Lemma string_app_inv_tail (a b c : string) : a +:+ c = b +:+ c -> a = b.
Proof.
  intros H.
  assert (Hl : String.length a = String.length b).
  { apply (f_equal String.length) in H.
    rewrite !string_length_app in H. lia. }
  revert b H Hl. induction a as [|x a IH]; intros [|y b] H Hl;
    simpl in *; try discriminate; [reflexivity|].
  injection H as -> H. f_equal. apply IH; [exact H|lia].
Qed.

(** Two history keys of one (object, requester) pair differ as soon as the
    transaction ids do. *)
Lemma histKey_inj (o r t1 t2 : string) :
  createCompositeKey "ACCESS" [o; r; t1] = createCompositeKey "ACCESS" [o; r; t2] ->
  t1 = t2.
Proof.
  unfold createCompositeKey. simpl. intros H.
  injection H as H.
  apply (inj (String.app o)) in H. injection H as H.
  apply (inj (String.app r)) in H. injection H as H.
  now apply string_app_inv_tail in H.
Qed.

Lemma key_S_ne_ACCESS (u : string) (l : list string) :
  createCompositeKey "ACCESS" l <> createCompositeKey "S" [u].
Proof. unfold createCompositeKey. simpl. discriminate. Qed.

Lemma key_S_ne_ACCESS_LAST (u : string) (l : list string) :
  createCompositeKey "ACCESS_LAST" l <> createCompositeKey "S" [u].
Proof. unfold createCompositeKey. simpl. discriminate. Qed.

Lemma key_DATA_ne_ACCESS (o : string) (l : list string) :
  createCompositeKey "ACCESS" l <> createCompositeKey "DATA" [o].
Proof. unfold createCompositeKey. simpl. discriminate. Qed.

Lemma key_DATA_ne_ACCESS_LAST (o : string) (l : list string) :
  createCompositeKey "ACCESS_LAST" l <> createCompositeKey "DATA" [o].
Proof. unfold createCompositeKey. simpl. discriminate. Qed.

Lemma key_DATA_ne_S (o u : string) :
  createCompositeKey "DATA" [o] <> createCompositeKey "S" [u].
Proof. unfold createCompositeKey. simpl. discriminate. Qed.

Lemma key_ACCESS_LAST_ne_ACCESS (l l' : list string) :
  createCompositeKey "ACCESS_LAST" l <> createCompositeKey "ACCESS" l'.
Proof. unfold createCompositeKey. simpl. discriminate. Qed.

(** ** Contract SC1: running the decision *)

Ltac run_tx :=
  unfold mbind, Tx_bind, mret, Tx_ret, getState, putState, liftResult, throw.

Lemma DecTest_run (ctx : TxContext) (o r : string) (w : gmap string document)
    (Srec : UserVec) (meta : DataMeta) (S P : list Z) :
  w !! createCompositeKey "S" [r] = Some (DocUserVec Srec) ->
  w !! createCompositeKey "DATA" [o] = Some (DocMeta meta) ->
  mapBigInt (vecS Srec) = Ok S ->
  mapBigInt (policyVector meta) = Ok P ->
  DecTest ctx o r w =
    match innerProductMod S P with
    | Ok ip =>
        (Ok (decisionRecord ctx o r ip),
         <[lastKeyOf o r := DocAccess (decisionRecord ctx o r ip)]>
           (<[histKeyOf ctx o r := DocAccess (decisionRecord ctx o r ip)]> w))
    | Err e => (Err e, w)
    end.
Proof.
  intros HS HP HSv HPv.
  unfold DecTest, ReadUserVec, GetDataMeta. run_tx.
  rewrite HS. simpl. rewrite HSv, HP. simpl. rewrite HPv.
  destruct (innerProductMod S P); reflexivity.
Qed.

(** ** Contract SC1: the properties *)

(** C8. For every integer [x], negative ones included, [modP] is idempotent
    and its result lies in [0, p). *)
Theorem modP_canonical (x : Z) :
  modP (modP x) = modP x /\ 0 <= modP x < PRIME_P.
Proof. split; [apply modP_idem|apply modP_range]. Qed.

(** C1. For a stored user vector [S] and a stored policy vector [P] of equal
    length, [DecTest] succeeds; the inner product it records is the sum of
    the products [modP S[i] * modP P[i]] reduced modulo [p], the verdict is
    the zero test of that value, and the record returned is the one written
    under the history key and under the latest-decision key. *)
Theorem DecTest_inner_product (ctx : TxContext) (o r : string)
    (w : gmap string document) (Srec : UserVec) (meta : DataMeta)
    (S P : list Z) :
  w !! createCompositeKey "S" [r] = Some (DocUserVec Srec) ->
  w !! createCompositeKey "DATA" [o] = Some (DocMeta meta) ->
  mapBigInt (vecS Srec) = Ok S ->
  mapBigInt (policyVector meta) = Ok P ->
  length S = length P ->
  exists access w',
    DecTest ctx o r w = (Ok access, w') /\
    innerProduct access = toString (sumProducts S P mod PRIME_P) /\
    BigInt (innerProduct access) = Some (sumProducts S P mod PRIME_P) /\
    allowed access = (sumProducts S P mod PRIME_P =? 0) /\
    w' !! createCompositeKey "ACCESS" [o; r; txID ctx] = Some (DocAccess access) /\
    w' !! createCompositeKey "ACCESS_LAST" [o; r] = Some (DocAccess access).
Proof.
  intros HS HP HSv HPv Hlen.
  rewrite (DecTest_run ctx o r w Srec meta S P HS HP HSv HPv).
  rewrite (innerProductMod_spec S P Hlen).
  eexists _, _. split; [reflexivity|]. unfold innerProductSpec.
  repeat split.
  - apply BigInt_toString.
  - fold (histKeyOf ctx o r). fold (lastKeyOf o r).
    rewrite lookup_insert. case_decide; [reflexivity|].
    apply lookup_insert_eq.
  - fold (lastKeyOf o r). apply lookup_insert_eq.
Qed.

Lemma DecTest_inner_product_witness :
  exists access w',
    DecTest exampleCtx "doc1" "alice" exampleLedger = (Ok access, w') /\
    innerProduct access = toString (sumProducts [11; PRIME_P - 3] [3; 11] mod PRIME_P) /\
    BigInt (innerProduct access) = Some (sumProducts [11; PRIME_P - 3] [3; 11] mod PRIME_P) /\
    allowed access = (sumProducts [11; PRIME_P - 3] [3; 11] mod PRIME_P =? 0) /\
    w' !! createCompositeKey "ACCESS" ["doc1"; "alice"; txID exampleCtx]
      = Some (DocAccess access) /\
    w' !! createCompositeKey "ACCESS_LAST" ["doc1"; "alice"] = Some (DocAccess access).
Proof.
  apply (DecTest_inner_product exampleCtx "doc1" "alice" exampleLedger
           {| vecUserId := "alice";
              vecS := ["11"; toString (PRIME_P - 3)] |}
           {| metaObjectId := "doc1"; metaOwnerId := "owner1";
              policyVector := ["3"; "11"]; c0 := "YzA=";
              addressCipher := "YWRkcg=="; ctKeyPart := "Y3Q=" |});
    vm_compute; reflexivity.
Defined.

(** C5. For a stored user vector [S] and a stored policy vector [P] of
    different lengths, [DecTest] throws the length-mismatch error and leaves
    the world state as it found it: no history entry is written and the
    latest-decision entry is not touched. *)
Theorem DecTest_length_mismatch (ctx : TxContext) (o r : string)
    (w : gmap string document) (Srec : UserVec) (meta : DataMeta)
    (S P : list Z) :
  w !! createCompositeKey "S" [r] = Some (DocUserVec Srec) ->
  w !! createCompositeKey "DATA" [o] = Some (DocMeta meta) ->
  mapBigInt (vecS Srec) = Ok S ->
  mapBigInt (policyVector meta) = Ok P ->
  length S <> length P ->
  exists w',
    DecTest ctx o r w = (Err (LengthMismatch (length S) (length P)), w') /\
    w' = w /\
    w' !! createCompositeKey "ACCESS" [o; r; txID ctx]
      = w !! createCompositeKey "ACCESS" [o; r; txID ctx] /\
    w' !! createCompositeKey "ACCESS_LAST" [o; r]
      = w !! createCompositeKey "ACCESS_LAST" [o; r].
Proof.
  intros HS HP HSv HPv Hlen.
  rewrite (DecTest_run ctx o r w Srec meta S P HS HP HSv HPv).
  rewrite (innerProductMod_mismatch S P Hlen).
  exists w. repeat split.
Qed.

Lemma DecTest_length_mismatch_witness :
  exists w',
    DecTest exampleCtx "doc1" "alice" exampleLedgerShort
      = (Err (LengthMismatch 5 4), w') /\
    w' = exampleLedgerShort /\
    w' !! createCompositeKey "ACCESS" ["doc1"; "alice"; txID exampleCtx]
      = exampleLedgerShort !! createCompositeKey "ACCESS" ["doc1"; "alice"; txID exampleCtx] /\
    w' !! createCompositeKey "ACCESS_LAST" ["doc1"; "alice"]
      = exampleLedgerShort !! createCompositeKey "ACCESS_LAST" ["doc1"; "alice"].
Proof.
  apply (DecTest_length_mismatch exampleCtx "doc1" "alice" exampleLedgerShort
           {| vecUserId := "alice"; vecS := ["1"; "2"; "3"; "4"; "5"] |}
           {| metaObjectId := "doc1"; metaOwnerId := "owner1";
              policyVector := ["1"; "2"; "3"; "4"]; c0 := "YzA=";
              addressCipher := "YWRkcg=="; ctKeyPart := "Y3Q=" |}
           [1; 2; 3; 4; 5] [1; 2; 3; 4]);
    vm_compute; solve [reflexivity | discriminate].
Defined.

Lemma normalized_canonical (vs : list Z) :
  Forall canonical (map (fun v => toString (modP v)) vs).
Proof.
  induction vs as [|v vs IH]; simpl; constructor; [|exact IH].
  exists (modP v). split; [apply modP_range|reflexivity].
Qed.

Lemma normalized_in_range (vs : list Z) :
  Forall (fun v => 0 <= v < PRIME_P) (map modP vs).
Proof.
  induction vs as [|v vs IH]; simpl; constructor; [|exact IH].
  apply modP_range.
Qed.

Lemma normalized_differs (raw : list Z) (i : nat) (x : Z) :
  raw !! i = Some x -> ~ (0 <= x < PRIME_P) ->
  map (fun v => toString (modP v)) raw !! i <> Some (toString x).
Proof.
  intros Hi Hx. change (map ?f raw) with (f <$> raw).
  rewrite list_lookup_fmap, Hi. simpl. intros [= H].
  apply toString_inj in H. pose proof (modP_range x). lia.
Qed.

Lemma CreateVec_run (o owner c0' ac ck : string) (strs : list string)
    (raw : list Z) (w : gmap string document) :
  mapBigInt strs = Ok raw ->
  let meta := {| metaObjectId := o; metaOwnerId := owner;
                 policyVector := map (fun v => toString (modP v)) raw;
                 c0 := c0'; addressCipher := ac; ctKeyPart := ck |} in
  CreateVec o owner strs c0' ac ck w =
    (Ok meta, <[createCompositeKey "DATA" [o] := DocMeta meta]> w).
Proof.
  intros H. unfold CreateVec. run_tx. unfold normalizeStrings.
  now rewrite H.
Qed.

Lemma StoreUserVec_run (u : string) (strs : list string) (raw : list Z)
    (w : gmap string document) :
  mapBigInt strs = Ok raw ->
  let rec := {| vecUserId := u;
                vecS := map (fun v => toString (modP v)) raw |} in
  StoreUserVec u strs w =
    (Ok rec, <[createCompositeKey "S" [u] := DocUserVec rec]> w).
Proof.
  intros H. unfold StoreUserVec. run_tx. unfold normalizeStrings.
  now rewrite H.
Qed.

(** C6. For every object id the stub accepts as a key part (a non-empty
    one) and every raw vector, [CreateVec] followed by [GetDataMeta] for the
    same object id returns the stored record, whose policy vector holds,
    element by element, the canonical residue [modP] of the raw input and
    not the raw input itself. *)
Theorem CreateVec_GetDataMeta_roundtrip (o owner c0' ac ck : string)
    (strs : list string) (raw : list Z) (w : gmap string document) :
  o <> "" ->
  mapBigInt strs = Ok raw ->
  exists meta w1,
    CreateVec o owner strs c0' ac ck w = (Ok meta, w1) /\
    GetDataMeta o w1 = (Ok (DocMeta meta), w1) /\
    policyVector meta = map (fun x => toString (modP x)) raw /\
    mapBigInt (policyVector meta) = Ok (map modP raw) /\
    Forall (fun v => 0 <= v < PRIME_P) (map modP raw) /\
    (forall i x, raw !! i = Some x -> ~ (0 <= x < PRIME_P) ->
                 policyVector meta !! i <> Some (toString x)).
Proof.
  intros _ Hraw. rewrite (CreateVec_run o owner c0' ac ck strs raw w Hraw).
  eexists _, _. split; [reflexivity|]. simpl. repeat split.
  - unfold GetDataMeta. run_tx. now rewrite lookup_insert_eq.
  - apply mapBigInt_normalized.
  - apply normalized_in_range.
  - apply normalized_differs.
Qed.

Lemma CreateVec_GetDataMeta_roundtrip_witness :
  exists meta w1,
    CreateVec "doc1" "owner1" ["-1"; "7"; toString (PRIME_P + 2)]
      "YzA=" "YWRkcg==" "Y3Q=" ∅ = (Ok meta, w1) /\
    GetDataMeta "doc1" w1 = (Ok (DocMeta meta), w1) /\
    policyVector meta
      = map (fun x => toString (modP x)) [-1; 7; PRIME_P + 2] /\
    mapBigInt (policyVector meta) = Ok (map modP [-1; 7; PRIME_P + 2]) /\
    Forall (fun v => 0 <= v < PRIME_P) (map modP [-1; 7; PRIME_P + 2]) /\
    (forall i x, [-1; 7; PRIME_P + 2] !! i = Some x -> ~ (0 <= x < PRIME_P) ->
                 policyVector meta !! i <> Some (toString x)).
Proof.
  apply (CreateVec_GetDataMeta_roundtrip "doc1" "owner1" "YzA=" "YWRkcg=="
           "Y3Q=" ["-1"; "7"; toString (PRIME_P + 2)] [-1; 7; PRIME_P + 2] ∅).
  - discriminate.
  - vm_compute. reflexivity.
Defined.

(** C9. [StoreUserVec], for a user id the stub accepts as a key part (a
    non-empty one), applies [modP] to every submitted element before it
    writes: the vector under the [S] key, the one [ReadUserVec] hands to
    [DecTest], holds canonical residues of [0, p) only, whatever the sign
    or size of the submitted elements; stored user vectors stay canonical. *)
Theorem StoreUserVec_canonical (u : string) (strs : list string)
    (raw : list Z) (w : gmap string document) :
  u <> "" ->
  mapBigInt strs = Ok raw ->
  exists rec w1,
    StoreUserVec u strs w = (Ok rec, w1) /\
    w1 !! createCompositeKey "S" [u] = Some (DocUserVec rec) /\
    ReadUserVec u w1 = (Ok (DocUserVec rec), w1) /\
    vecS rec = map (fun x => toString (modP x)) raw /\
    mapBigInt (vecS rec) = Ok (map modP raw) /\
    Forall (fun v => 0 <= v < PRIME_P) (map modP raw) /\
    (storedCanonical w -> storedCanonical w1).
Proof.
  intros _ Hraw. rewrite (StoreUserVec_run u strs raw w Hraw).
  eexists _, _. split; [reflexivity|]. simpl. repeat split.
  - apply lookup_insert_eq.
  - unfold ReadUserVec. run_tx. now rewrite lookup_insert_eq.
  - apply mapBigInt_normalized.
  - apply normalized_in_range.
  - intros Hw u' rec'. rewrite lookup_insert. case_decide.
    + intros [= <-]. apply normalized_canonical.
    + apply Hw.
Qed.

Lemma StoreUserVec_canonical_witness :
  exists rec w1,
    StoreUserVec "alice" ["-5"; toString (2 * PRIME_P + 1); "12"] ∅
      = (Ok rec, w1) /\
    w1 !! createCompositeKey "S" ["alice"] = Some (DocUserVec rec) /\
    ReadUserVec "alice" w1 = (Ok (DocUserVec rec), w1) /\
    vecS rec = map (fun x => toString (modP x)) [-5; 2 * PRIME_P + 1; 12] /\
    mapBigInt (vecS rec) = Ok (map modP [-5; 2 * PRIME_P + 1; 12]) /\
    Forall (fun v => 0 <= v < PRIME_P) (map modP [-5; 2 * PRIME_P + 1; 12]) /\
    (storedCanonical ∅ -> storedCanonical w1).
Proof.
  apply (StoreUserVec_canonical "alice"
           ["-5"; toString (2 * PRIME_P + 1); "12"]
           [-5; 2 * PRIME_P + 1; 12] ∅).
  - discriminate.
  - vm_compute. reflexivity.
Defined.

Lemma DecTest_keeps_inputs (ctx : TxContext) (o r k : string) (d : document)
    (w : gmap string document) :
  k = createCompositeKey "S" [r] \/ k = createCompositeKey "DATA" [o] ->
  (<[lastKeyOf o r := d]> (<[histKeyOf ctx o r := d]> w)) !! k = w !! k.
Proof.
  unfold lastKeyOf, histKeyOf. intros [-> | ->].
  - rewrite lookup_insert_ne by apply key_S_ne_ACCESS_LAST.
    now rewrite lookup_insert_ne by apply key_S_ne_ACCESS.
  - rewrite lookup_insert_ne by apply key_DATA_ne_ACCESS_LAST.
    now rewrite lookup_insert_ne by apply key_DATA_ne_ACCESS.
Qed.

(** C7. Two successive decisions for one (object, requester) pair, run
    under different transaction ids, write two different records under two
    different history keys, the second leaving the first in place; after
    each of them the latest-decision entry of the pair is the very record
    that decision wrote under its history key. *)
Theorem DecTest_twice (ctx1 ctx2 : TxContext) (o r : string)
    (w : gmap string document) (Srec : UserVec) (meta : DataMeta)
    (S P : list Z) :
  w !! createCompositeKey "S" [r] = Some (DocUserVec Srec) ->
  w !! createCompositeKey "DATA" [o] = Some (DocMeta meta) ->
  mapBigInt (vecS Srec) = Ok S ->
  mapBigInt (policyVector meta) = Ok P ->
  length S = length P ->
  txID ctx1 <> txID ctx2 ->
  exists a1 w1 a2 w2,
    DecTest ctx1 o r w = (Ok a1, w1) /\
    DecTest ctx2 o r w1 = (Ok a2, w2) /\
    createCompositeKey "ACCESS" [o; r; txID ctx1]
      <> createCompositeKey "ACCESS" [o; r; txID ctx2] /\
    a1 <> a2 /\
    w1 !! createCompositeKey "ACCESS" [o; r; txID ctx1] = Some (DocAccess a1) /\
    w1 !! createCompositeKey "ACCESS_LAST" [o; r] = Some (DocAccess a1) /\
    w2 !! createCompositeKey "ACCESS" [o; r; txID ctx1] = Some (DocAccess a1) /\
    w2 !! createCompositeKey "ACCESS" [o; r; txID ctx2] = Some (DocAccess a2) /\
    w2 !! createCompositeKey "ACCESS_LAST" [o; r] = Some (DocAccess a2).
Proof.
  intros HS HP HSv HPv Hlen Htx.
  assert (Hkeys : histKeyOf ctx1 o r <> histKeyOf ctx2 o r).
  { intros H. apply Htx. exact (histKey_inj _ _ _ _ H). }
  rewrite (DecTest_run ctx1 o r w Srec meta S P HS HP HSv HPv).
  rewrite (innerProductMod_spec S P Hlen).
  set (a1 := decisionRecord ctx1 o r (innerProductSpec S P)).
  set (w1 := <[lastKeyOf o r := DocAccess a1]>
               (<[histKeyOf ctx1 o r := DocAccess a1]> w)).
  assert (HS1 : w1 !! createCompositeKey "S" [r] = Some (DocUserVec Srec)).
  { unfold w1. rewrite (DecTest_keeps_inputs ctx1 o r); [exact HS|now left]. }
  assert (HP1 : w1 !! createCompositeKey "DATA" [o] = Some (DocMeta meta)).
  { unfold w1. rewrite (DecTest_keeps_inputs ctx1 o r); [exact HP|now right]. }
  exists a1, w1. eexists _, _.
  split; [reflexivity|].
  rewrite (DecTest_run ctx2 o r w1 Srec meta S P HS1 HP1 HSv HPv).
  rewrite (innerProductMod_spec S P Hlen).
  split; [reflexivity|].
  fold (histKeyOf ctx1 o r) (histKeyOf ctx2 o r) (lastKeyOf o r).
  assert (Hlast : forall ctx, lastKeyOf o r <> histKeyOf ctx o r)
    by (intros ctx; apply key_ACCESS_LAST_ne_ACCESS).
  repeat split.
  - exact Hkeys.
  - intros Ha. apply Htx. exact (f_equal txId Ha).
  - unfold w1. rewrite lookup_insert_ne by apply Hlast.
    apply lookup_insert_eq.
  - unfold w1. apply lookup_insert_eq.
  - rewrite lookup_insert_ne by apply Hlast.
    rewrite lookup_insert_ne by (intros H; now apply Hkeys).
    unfold w1. rewrite lookup_insert_ne by apply Hlast.
    apply lookup_insert_eq.
  - rewrite lookup_insert_ne by apply Hlast.
    apply lookup_insert_eq.
  - apply lookup_insert_eq.
Qed.

Lemma DecTest_twice_witness :
  exists a1 w1 a2 w2,
    DecTest exampleCtx "doc1" "alice" exampleLedger = (Ok a1, w1) /\
    DecTest exampleCtx' "doc1" "alice" w1 = (Ok a2, w2) /\
    createCompositeKey "ACCESS" ["doc1"; "alice"; txID exampleCtx]
      <> createCompositeKey "ACCESS" ["doc1"; "alice"; txID exampleCtx'] /\
    a1 <> a2 /\
    w1 !! createCompositeKey "ACCESS" ["doc1"; "alice"; txID exampleCtx]
      = Some (DocAccess a1) /\
    w1 !! createCompositeKey "ACCESS_LAST" ["doc1"; "alice"]
      = Some (DocAccess a1) /\
    w2 !! createCompositeKey "ACCESS" ["doc1"; "alice"; txID exampleCtx]
      = Some (DocAccess a1) /\
    w2 !! createCompositeKey "ACCESS" ["doc1"; "alice"; txID exampleCtx']
      = Some (DocAccess a2) /\
    w2 !! createCompositeKey "ACCESS_LAST" ["doc1"; "alice"]
      = Some (DocAccess a2).
Proof.
  apply (DecTest_twice exampleCtx exampleCtx' "doc1" "alice" exampleLedger
           {| vecUserId := "alice";
              vecS := ["11"; toString (PRIME_P - 3)] |}
           {| metaObjectId := "doc1"; metaOwnerId := "owner1";
              policyVector := ["3"; "11"]; c0 := "YzA=";
              addressCipher := "YWRkcg=="; ctKeyPart := "Y3Q=" |}
           [11; PRIME_P - 3] [3; 11]);
    vm_compute; solve [reflexivity | discriminate].
Defined.

(** C10. Nothing asks for a non-empty vector: when the user vector and the
    policy vector stored for a (requester, object) pair are both empty,
    [DecTest] succeeds, with inner product [0] and verdict [true]. *)
Theorem DecTest_empty_vectors (ctx : TxContext) (o r : string)
    (w : gmap string document) (Srec : UserVec) (meta : DataMeta) :
  w !! createCompositeKey "S" [r] = Some (DocUserVec Srec) ->
  w !! createCompositeKey "DATA" [o] = Some (DocMeta meta) ->
  vecS Srec = [] ->
  policyVector meta = [] ->
  exists access w',
    DecTest ctx o r w = (Ok access, w') /\
    innerProduct access = "0" /\
    allowed access = true /\
    w' !! createCompositeKey "ACCESS" [o; r; txID ctx] = Some (DocAccess access).
Proof.
  intros HS HP HSv HPv.
  rewrite (DecTest_run ctx o r w Srec meta [] [] HS HP)
    by (rewrite ?HSv, ?HPv; reflexivity).
  simpl. eexists _, _. split; [reflexivity|]. repeat split.
  fold (histKeyOf ctx o r).
  rewrite lookup_insert_ne by apply key_ACCESS_LAST_ne_ACCESS.
  apply lookup_insert_eq.
Qed.

Lemma DecTest_empty_vectors_witness :
  exists access w',
    DecTest exampleCtx "doc1" "alice" exampleLedgerEmpty = (Ok access, w') /\
    innerProduct access = "0" /\
    allowed access = true /\
    w' !! createCompositeKey "ACCESS" ["doc1"; "alice"; txID exampleCtx]
      = Some (DocAccess access).
Proof.
  apply (DecTest_empty_vectors exampleCtx "doc1" "alice" exampleLedgerEmpty
           {| vecUserId := "alice"; vecS := [] |}
           {| metaObjectId := "doc1"; metaOwnerId := "owner1";
              policyVector := []; c0 := "YzA=";
              addressCipher := "YWRkcg=="; ctKeyPart := "Y3Q=" |});
    vm_compute; reflexivity.
Defined.

(** ** Contract SC2: the vector transform *)

Lemma prodAll_from (ch : list Z) (acc : Z) :
  0 <= acc < PRIME_P ->
  fold_left (fun a v => modP (a * v)) ch acc
    = (acc * foldr Z.mul 1 ch) mod PRIME_P.
Proof.
  revert acc. induction ch as [|v ch IH]; intros acc Hacc; simpl.
  - rewrite Z.mul_1_r. symmetry. now apply Z.mod_small.
  - rewrite IH by apply modP_range. rewrite modP_mod.
    rewrite Zmult_mod_idemp_l. now rewrite Z.mul_assoc.
Qed.

Lemma prodAll_fieldProduct (ch : list Z) : prodAll ch = fieldProduct ch.
Proof.
  unfold prodAll, fieldProduct.
  rewrite prodAll_from by (split; [lia|reflexivity]).
  now rewrite Z.mul_1_l.
Qed.

Lemma map_nth_seq (l : list Z) (f : Z -> Z) :
  map (fun j => f (nth j l 0)) (seq 0 (length l)) = map f l.
Proof.
  induction l as [|x l IH]; simpl; [reflexivity|].
  f_equal. rewrite <- seq_shift, map_map. exact IH.
Qed.

(** The double loop, by the head of the list. *)
Lemma pairwise_cons (x : Z) (l : list Z) :
  pairwise (x :: l) = (map (fun y => modP (x * y)) l ++ pairwise l)%list.
Proof.
  unfold pairwise. simpl length. simpl seq. simpl flat_map.
  rewrite Nat.sub_0_r. f_equal.
  - rewrite <- seq_shift, map_map. simpl.
    apply (map_nth_seq l (fun y => modP (x * y))).
  - rewrite <- seq_shift, flat_map_concat_map, map_map.
    rewrite <- flat_map_concat_map. apply flat_map_ext. intros i.
    replace (S i + 1)%nat with (S (i + 1)) by lia.
    replace (S (length l) - S (i + 1))%nat with (length l - (i + 1))%nat by lia.
    rewrite <- seq_shift, map_map. reflexivity.
Qed.

Lemma pairwise_length_double (ch : list Z) :
  (2 * length (pairwise ch) = length ch * (length ch - 1))%nat.
Proof.
  induction ch as [|x l IH]; [reflexivity|].
  rewrite pairwise_cons, length_app, length_map. simpl length.
  destruct (length l) as [|m]; [simpl in *; lia|].
  replace (S m - 1)%nat with m in IH by lia.
  replace (S (S m) - 1)%nat with (S m) by lia. lia.
Qed.

Lemma pairwise_length (ch : list Z) :
  length (pairwise ch) = (length ch * (length ch - 1) / 2)%nat.
Proof.
  rewrite <- pairwise_length_double, Nat.mul_comm.
  now rewrite Nat.div_mul.
Qed.

Lemma filter_lt_seq (i n : nat) :
  filter (fun j => (i < j)%nat) (seq 0 n) = seq (i + 1) (n - (i + 1)).
Proof.
  induction n as [|n IH]; [reflexivity|].
  rewrite seq_S, filter_app, IH. simpl.
  rewrite filter_cons, filter_nil. case_decide.
  - replace (S n - (i + 1))%nat with (S (n - (i + 1))) by lia.
    rewrite seq_S. do 2 f_equal. lia.
  - replace (S n - (i + 1))%nat with 0%nat by lia.
    replace (n - (i + 1))%nat with 0%nat by lia. reflexivity.
Qed.

Lemma filter_row (i : nat) (l : list nat) :
  filter (fun ij : nat * nat => (ij.1 < ij.2)%nat) (map (pair i) l)
    = map (pair i) (filter (fun j => (i < j)%nat) l).
Proof.
  induction l as [|j l IH]; [reflexivity|]. simpl.
  rewrite !filter_cons. simpl. case_decide; simpl; now rewrite IH.
Qed.

(** The double loop visits the index pairs [i < j] in the order of the
    specification. *)
Lemma pairwise_pairProducts (ch : list Z) : pairwise ch = pairProducts ch.
Proof.
  unfold pairwise, pairProducts, indexPairs.
  rewrite list_prod_as_flat_map.
  generalize (seq 0 (length ch)) at 1 3. intros rows.
  induction rows as [|i rows IH]; [reflexivity|].
  simpl. rewrite filter_app, map_app, <- IH. f_equal.
  rewrite filter_row, filter_lt_seq, map_map. simpl.
  apply map_ext. intros j. apply modP_mod.
Qed.

Lemma buildS_spec (ch : list Z) : buildS ch = userVectorSpec ch.
Proof.
  unfold buildS, userVectorSpec.
  now rewrite prodAll_fieldProduct, pairwise_pairProducts.
Qed.

Lemma buildS_length (ch : list Z) :
  length (buildS ch)
    = (2 + length ch + length ch * (length ch - 1) / 2)%nat.
Proof.
  unfold buildS. simpl. rewrite !length_app, pairwise_length. simpl. lia.
Qed.

(** ** Contract SC2: the sort *)

Section SortFacts.
Context {A : Type} (compareFn : A -> A -> Z).

Lemma sortInsert_Permutation (x : A) (l : list A) :
  sortInsert compareFn x l ≡ₚ x :: l.
Proof.
  induction l as [|y l IH]; simpl; [reflexivity|].
  destruct (compareFn x y <=? 0); [reflexivity|].
  rewrite IH. apply Permutation_swap.
Qed.

Lemma sort_Permutation (l : list A) : sort compareFn l ≡ₚ l.
Proof.
  induction l as [|x l IH]; simpl; [reflexivity|].
  fold (sort compareFn l). now rewrite sortInsert_Permutation, IH.
Qed.

Lemma sort_length (l : list A) : length (sort compareFn l) = length l.
Proof. apply Permutation_length, sort_Permutation. Qed.

Hypothesis compareFn_total : forall a b, compareFn a b <= 0 \/ compareFn b a <= 0.

Lemma sortInsert_Sorted (x : A) (l : list A) :
  Sorted (fun a b => compareFn a b <= 0) l ->
  Sorted (fun a b => compareFn a b <= 0) (sortInsert compareFn x l).
Proof.
  induction 1 as [|y l Hl IH Hhd]; simpl.
  - repeat constructor.
  - destruct (Z.leb_spec (compareFn x y) 0) as [Hxy|Hxy].
    + repeat constructor; assumption.
    + constructor; [exact IH|].
      destruct Hhd as [|z l Hyz]; simpl.
      * constructor. destruct (compareFn_total y x); [assumption|lia].
      * destruct (compareFn x z <=? 0); constructor;
          [destruct (compareFn_total y x); [assumption|lia]|assumption].
Qed.

Lemma sort_Sorted (l : list A) :
  Sorted (fun a b => compareFn a b <= 0) (sort compareFn l).
Proof.
  induction l as [|x l IH]; simpl; [constructor|].
  now apply sortInsert_Sorted.
Qed.
End SortFacts.

(** Two comparators that agree, on the elements of the list, on which of
    two elements may stay first, sort the list alike. *)
Lemma sort_agree {A : Type} (f g : A -> A -> Z) (l : list A) :
  (forall a b, a ∈ l -> b ∈ l -> (f a b <= 0 <-> g a b <= 0)) ->
  sort f l = sort g l.
Proof.
  induction l as [|x l IH]; intros Hfg; [reflexivity|]. simpl.
  fold (sort f l) (sort g l). rewrite IH by (intros; apply Hfg; now right).
  assert (Hin : forall b, b ∈ sort g l -> b ∈ l)
    by (intros b; now rewrite sort_Permutation).
  revert Hin. generalize (sort g l). intros m.
  induction m as [|y m IHm]; intros Hin; simpl; [reflexivity|].
  assert (Hy : f x y <= 0 <-> g x y <= 0)
    by (apply Hfg; [left|right; apply Hin; left]).
  rewrite IHm by (intros b Hb; apply Hin; now right).
  destruct (Z.leb_spec (f x y) 0), (Z.leb_spec (g x y) 0);
    solve [reflexivity | lia].
Qed.

Lemma Sorted_weaken {A : Type} (R R' : A -> A -> Prop) (l : list A) :
  (forall a b, a ∈ l -> b ∈ l -> R a b -> R' a b) ->
  Sorted R l -> Sorted R' l.
Proof.
  intros HR Hl. induction Hl as [|x l Hl IH Hhd]; constructor.
  - apply IH. intros a b Ha Hb. apply HR; now right.
  - destruct Hhd as [|y l Hxy]; constructor.
    apply HR; [left|right; left|exact Hxy].
Qed.

Lemma codeUnitCompare_le (a b : string) :
  codeUnitCompare a b <= 0 <-> String.le a b.
Proof.
  unfold codeUnitCompare, String.le, String.leb.
  destruct (String.compare a b); simpl; intuition lia.
Qed.

Lemma codeUnitCompare_total (a b : string) :
  codeUnitCompare a b <= 0 \/ codeUnitCompare b a <= 0.
Proof.
  unfold codeUnitCompare. rewrite (String.compare_antisym a b).
  destruct (String.compare b a); simpl; lia.
Qed.

Lemma collateLetters_total (a b : string) :
  collateLetters a b <= 0 \/ collateLetters b a <= 0.
Proof.
  unfold collateLetters.
  rewrite (String.compare_antisym (lowerCase a) (lowerCase b)).
  destruct (String.compare (lowerCase b) (lowerCase a)); simpl; try lia.
  destruct (codeUnitCompare_total a b); lia.
Qed.

(** ** Contract SC2: running the transform *)

Lemma asAttrs_length (docs : list document) (attrs : list HiddenAttr) :
  asAttrs docs = Ok attrs -> length attrs = length docs.
Proof.
  revert attrs. induction docs as [|d docs IH]; simpl; intros attrs H.
  - now inversion H.
  - destruct d; try discriminate.
    destruct (asAttrs docs) as [hs|]; [|discriminate].
    inversion H; subst. simpl. f_equal. now apply IH.
Qed.

Lemma mapBigInt_chValues (attrs : list HiddenAttr) :
  Forall (fun a => is_Some (BigInt (chValue a))) attrs ->
  mapBigInt (map chValue attrs)
    = Ok (map (fun a => default 0 (BigInt (chValue a))) attrs).
Proof.
  induction 1 as [|a attrs [v Hv] _ IH]; simpl; [reflexivity|].
  now rewrite Hv, IH.
Qed.

Lemma CreateUserVec_run (localeCompare : string -> string -> Z) (u : string)
    (w : gmap string document) (docs : list document)
    (attrs : list HiddenAttr) :
  GetHiddenAttributes u w = (Ok docs, w) ->
  asAttrs docs = Ok attrs ->
  (1 <= length docs)%nat ->
  Forall (fun a => is_Some (BigInt (chValue a))) attrs ->
  let rec :=
    {| vecUserId := u;
       vecS := map toString
                 (buildS (map chOf (sortByCategory localeCompare attrs))) |} in
  CreateUserVec localeCompare u w =
    (Ok rec, <[createCompositeKey "USERVEC" [u] := DocUserVec rec]> w).
Proof.
  intros Hscan Hattrs Hn Hparse. unfold CreateUserVec.
  unfold mbind at 1. unfold Tx_bind at 1. rewrite Hscan.
  destruct docs as [|d docs]; [simpl in Hn; lia|].
  run_tx. rewrite Hattrs.
  rewrite mapBigInt_chValues.
  - rewrite map_map. reflexivity.
  - unfold sortByCategory. now rewrite sort_Permutation.
Qed.

Lemma mapBigInt_buildS (ch : list Z) :
  mapBigInt (map toString (buildS ch)) = Ok (userVectorSpec ch).
Proof. rewrite mapBigInt_toString. now rewrite buildS_spec. Qed.

(** ** Contract SC2: the properties *)

(** C3. For a user with [n >= 1] hidden attributes, [CreateUserVec] returns
    a vector of exactly [2 + n + n(n-1)/2] elements. *)
Theorem CreateUserVec_length (localeCompare : string -> string -> Z)
    (u : string) (w : gmap string document) (docs : list document)
    (attrs : list HiddenAttr) :
  GetHiddenAttributes u w = (Ok docs, w) ->
  asAttrs docs = Ok attrs ->
  (1 <= length docs)%nat ->
  Forall (fun a => is_Some (BigInt (chValue a))) attrs ->
  let n := length docs in
  exists rec w',
    CreateUserVec localeCompare u w = (Ok rec, w') /\
    length (vecS rec) = (2 + n + n * (n - 1) / 2)%nat.
Proof.
  intros Hscan Hattrs Hn Hparse n.
  rewrite (CreateUserVec_run localeCompare u w docs attrs Hscan Hattrs Hn Hparse).
  eexists _, _. split; [reflexivity|]. cbn [vecS].
  rewrite length_map, buildS_length, length_map.
  unfold sortByCategory. rewrite sort_length.
  now rewrite (asAttrs_length docs attrs Hattrs).
Qed.

Lemma CreateUserVec_length_witness :
  exists rec w',
    CreateUserVec codeUnitCompare "bob" exampleAttrLedger = (Ok rec, w') /\
    length (vecS rec) = (2 + 2 + 2 * (2 - 1) / 2)%nat.
Proof.
  apply (CreateUserVec_length codeUnitCompare "bob" exampleAttrLedger
           [DocAttr {| userId := "bob"; category := "c0"; chValue := "1000";
                       rValue := "2000"; aaenId := "AA1" |};
            DocAttr {| userId := "bob"; category := "c1"; chValue := "1001";
                       rValue := "2001"; aaenId := "AA1" |}]
           [{| userId := "bob"; category := "c0"; chValue := "1000";
               rValue := "2000"; aaenId := "AA1" |};
            {| userId := "bob"; category := "c1"; chValue := "1001";
               rValue := "2001"; aaenId := "AA1" |}]).
  - vm_compute. reflexivity.
  - reflexivity.
  - simpl. lia.
  - repeat constructor; vm_compute; eauto.
Defined.

Lemma userVectorSpec_single (x : Z) :
  userVectorSpec [modP x] = [modP x; modP x; 1].
Proof.
  unfold userVectorSpec, fieldProduct, pairProducts. simpl.
  rewrite Z.mul_1_r, <- modP_mod, modP_idem. reflexivity.
Qed.

(** C2. For a user with [n >= 1] hidden attributes, [CreateUserVec] returns
    the vector made of the field product of all normalized values, then the
    [n(n-1)/2] products [ch[i] * ch[j]] over the pairs [i < j] in canonical
    index order, then the [n] singles in index order, then [1].  With the
    two values 1000 and 1001 this is
    [[modP (1000*1001); modP (1000*1001); modP 1000; modP 1001; 1]], and with
    one value [ch0] it is [[ch0; ch0; 1]]. *)
Theorem CreateUserVec_builds_S (localeCompare : string -> string -> Z)
    (u : string) (w : gmap string document) (docs : list document)
    (attrs : list HiddenAttr) :
  GetHiddenAttributes u w = (Ok docs, w) ->
  asAttrs docs = Ok attrs ->
  (1 <= length docs)%nat ->
  Forall (fun a => is_Some (BigInt (chValue a))) attrs ->
  let ch := map chOf (sortByCategory localeCompare attrs) in
  let n := length ch in
  exists rec w',
    CreateUserVec localeCompare u w = (Ok rec, w') /\
    n = length docs /\
    vecS rec
      = map toString (fieldProduct ch :: pairProducts ch ++ ch ++ [1]) /\
    mapBigInt (vecS rec)
      = Ok (fieldProduct ch :: pairProducts ch ++ ch ++ [1]) /\
    length (pairProducts ch) = (n * (n - 1) / 2)%nat /\
    (forall a0 a1,
        sortByCategory localeCompare attrs = [a0; a1] ->
        chValue a0 = "1000" -> chValue a1 = "1001" ->
        mapBigInt (vecS rec)
          = Ok [modP (1000 * 1001); modP (1000 * 1001);
                modP 1000; modP 1001; 1]) /\
    (forall ch0, ch = [ch0] -> mapBigInt (vecS rec) = Ok [ch0; ch0; 1]).
Proof.
  intros Hscan Hattrs Hn Hparse ch n.
  rewrite (CreateUserVec_run localeCompare u w docs attrs Hscan Hattrs Hn Hparse).
  eexists _, _. split; [reflexivity|]. cbn [vecS]. fold ch.
  split; [|split; [|split; [|split; [|split]]]].
  - unfold n, ch, sortByCategory. rewrite length_map, sort_length.
    now apply asAttrs_length.
  - now rewrite buildS_spec.
  - apply mapBigInt_buildS.
  - rewrite <- pairwise_pairProducts. apply pairwise_length.
  - intros a0 a1 Hsorted H0 H1. rewrite mapBigInt_buildS.
    unfold ch. rewrite Hsorted. unfold chOf. simpl map. rewrite H0, H1.
    vm_compute. reflexivity.
  - intros ch0 Hch. rewrite mapBigInt_buildS, Hch.
    assert (Hch0 : ch0 = modP ch0).
    { unfold ch in Hch.
      destruct (sortByCategory localeCompare attrs) as [|a [|b l]];
        try discriminate.
      injection Hch as <-. unfold chOf. now rewrite modP_idem. }
    rewrite Hch0 at 1. rewrite userVectorSpec_single. now rewrite <- Hch0.
Qed.

Lemma CreateUserVec_builds_S_witness :
  exists rec w',
    CreateUserVec codeUnitCompare "bob" exampleAttrLedger = (Ok rec, w') /\
    vecS rec = ["1001000"; "1001000"; "1000"; "1001"; "1"].
Proof.
  destruct (CreateUserVec_builds_S codeUnitCompare "bob" exampleAttrLedger
           [DocAttr {| userId := "bob"; category := "c0"; chValue := "1000";
                       rValue := "2000"; aaenId := "AA1" |};
            DocAttr {| userId := "bob"; category := "c1"; chValue := "1001";
                       rValue := "2001"; aaenId := "AA1" |}]
           [{| userId := "bob"; category := "c0"; chValue := "1000";
               rValue := "2000"; aaenId := "AA1" |};
            {| userId := "bob"; category := "c1"; chValue := "1001";
               rValue := "2001"; aaenId := "AA1" |}])
    as (rec & w' & Hrun & _ & HS & _).
  - vm_compute. reflexivity.
  - reflexivity.
  - simpl. lia.
  - repeat constructor; vm_compute; eauto.
  - exists rec, w'. split; [exact Hrun|]. rewrite HS. vm_compute. reflexivity.
Defined.

(** C4, as the code has it.  Before it builds the vector, [CreateUserVec]
    sorts the user's hidden attributes by category with the host's
    [localeCompare]: for a comparator that is total, the canonical order is
    a rearrangement of the scanned attributes in which every attribute
    compares [<= 0] with the next, and the leading product, the pairwise
    products and the singles are indexed by that order.  Where
    [localeCompare] agrees with the lexicographic order on the categories
    present, it is the lexicographic order. *)
Theorem CreateUserVec_sorts_by_localeCompare
    (localeCompare : string -> string -> Z)
    (u : string) (w : gmap string document) (docs : list document)
    (attrs : list HiddenAttr) :
  (forall a b, localeCompare a b <= 0 \/ localeCompare b a <= 0) ->
  GetHiddenAttributes u w = (Ok docs, w) ->
  asAttrs docs = Ok attrs ->
  (1 <= length docs)%nat ->
  Forall (fun a => is_Some (BigInt (chValue a))) attrs ->
  let sorted := sortByCategory localeCompare attrs in
  sorted ≡ₚ attrs /\
  Sorted (fun a b => localeCompare (category a) (category b) <= 0) sorted /\
  (exists rec w',
      CreateUserVec localeCompare u w = (Ok rec, w') /\
      mapBigInt (vecS rec) = Ok (userVectorSpec (map chOf sorted))) /\
  ((forall a b, a ∈ attrs -> b ∈ attrs ->
       (localeCompare (category a) (category b) <= 0
        <-> String.le (category a) (category b))) ->
   Sorted (fun a b => String.le (category a) (category b)) sorted /\
   CreateUserVec localeCompare u w = CreateUserVec codeUnitCompare u w).
Proof.
  intros Htotal Hscan Hattrs Hn Hparse sorted.
  assert (Hperm : sorted ≡ₚ attrs) by apply sort_Permutation.
  assert (Hsorted :
    Sorted (fun a b => localeCompare (category a) (category b) <= 0) sorted).
  { apply (sort_Sorted (fun a b => localeCompare (category a) (category b))).
    intros a b. apply Htotal. }
  split; [exact Hperm|]. split; [exact Hsorted|]. split.
  - rewrite (CreateUserVec_run localeCompare u w docs attrs
               Hscan Hattrs Hn Hparse).
    eexists _, _. split; [reflexivity|]. apply mapBigInt_buildS.
  - intros Hagree. split.
    + apply (Sorted_weaken
                 (fun a b => localeCompare (category a) (category b) <= 0));
        [|exact Hsorted].
      intros a b Ha Hb H. rewrite Hperm in Ha, Hb. now apply Hagree.
    + rewrite (CreateUserVec_run localeCompare u w docs attrs
                 Hscan Hattrs Hn Hparse).
      rewrite (CreateUserVec_run codeUnitCompare u w docs attrs
                 Hscan Hattrs Hn Hparse).
      unfold sortByCategory.
      rewrite (sort_agree
                 (fun a b => localeCompare (category a) (category b))
                 (fun a b => codeUnitCompare (category a) (category b)) attrs).
      * reflexivity.
      * intros a b Ha Hb. rewrite codeUnitCompare_le. now apply Hagree.
Qed.

Lemma CreateUserVec_sorts_by_localeCompare_witness :
  sortByCategory collateLetters [attrUpperB; attrLowerA]
    = [attrLowerA; attrUpperB] /\
  Sorted (fun a b => collateLetters (category a) (category b) <= 0)
         (sortByCategory collateLetters [attrUpperB; attrLowerA]) /\
  exists rec w',
    CreateUserVec collateLetters "bob" exampleMixedCaseLedger = (Ok rec, w') /\
    mapBigInt (vecS rec)
      = Ok (userVectorSpec
              (map chOf (sortByCategory collateLetters [attrUpperB; attrLowerA]))).
Proof.
  destruct (CreateUserVec_sorts_by_localeCompare collateLetters "bob"
              exampleMixedCaseLedger
              [DocAttr attrUpperB; DocAttr attrLowerA]
              [attrUpperB; attrLowerA] collateLetters_total)
    as (_ & Hsorted & Hrun & _).
  - vm_compute. reflexivity.
  - reflexivity.
  - simpl. lia.
  - repeat constructor; vm_compute; eauto.
  - split; [vm_compute; reflexivity|]. split; [exact Hsorted|exact Hrun].
Defined.

(** C4, as the specification words it, fails: with the categories [a] and
    [B], which the host collation orders [a] first and the lexicographic
    order [B] first, the singles of the vector come out as [3, 2] and not as
    the [2, 3] of the lexicographic order. *)
Lemma CreateUserVec_not_lexicographic :
  fst (CreateUserVec collateLetters "bob" exampleMixedCaseLedger)
    = Ok {| vecUserId := "bob"; vecS := ["6"; "6"; "3"; "2"; "1"] |} /\
  fst (CreateUserVec codeUnitCompare "bob" exampleMixedCaseLedger)
    = Ok {| vecUserId := "bob"; vecS := ["6"; "6"; "2"; "3"; "1"] |} /\
  String.le "B" "a" /\
  ~ Sorted (fun a b => String.le (category a) (category b))
           (sortByCategory collateLetters [attrUpperB; attrLowerA]).
Proof.
  split; [vm_compute; reflexivity|].
  split; [vm_compute; reflexivity|].
  split; [exact I|].
  assert (E : sortByCategory collateLetters [attrUpperB; attrLowerA]
              = [attrLowerA; attrUpperB]) by (vm_compute; reflexivity).
  rewrite E. intros H.
  apply Sorted_inv in H as [_ Hhd].
  inversion Hhd as [|? ? Hle]. exact Hle.
Qed.

(** ** The first attribute of a user (scenario E of the specification) *)

Lemma prefix_app (u s t : string) :
  String.prefix s t = true -> String.prefix (u +:+ s) (u +:+ t) = true.
Proof.
  intros H. induction u as [|c u IH]; simpl; [exact H|].
  destruct (ascii_dec c c); [exact IH|congruence].
Qed.

Lemma attrKey_prefix (u cat : string) :
  String.prefix (createCompositeKey "ATTR" [u])
                (createCompositeKey "ATTR" [u; cat]) = true.
Proof.
  unfold createCompositeKey. simpl.
  apply (prefix_app u (String NUL "") (String NUL (cat +:+ String NUL ""))).
  destruct cat; reflexivity.
Qed.

Lemma scan_first_entry (pre k : string) (d : document)
    (w : gmap string document) :
  String.prefix pre k = true ->
  filter (fun kv : string * document => String.prefix pre kv.1 = true)
         (map_to_list w) = [] ->
  merge_sort keyLe
    (filter (fun kv : string * document => String.prefix pre kv.1 = true)
            (map_to_list (<[k := d]> w))) = [(k, d)].
Proof.
  intros Hk Hnone.
  assert (Hfree : w !! k = None).
  { destruct (w !! k) as [d'|] eqn:E; [|reflexivity].
    apply elem_of_map_to_list in E.
    assert (Hin : (k, d') ∈ filter
              (fun kv : string * document => String.prefix pre kv.1 = true)
              (map_to_list w)) by (apply list_elem_of_filter; now split).
    rewrite Hnone in Hin. now apply not_elem_of_nil in Hin. }
  apply Permutation_singleton_r.
  rewrite merge_sort_Permutation, (map_to_list_insert w k d Hfree).
  rewrite filter_cons. simpl. rewrite decide_True by exact Hk.
  now rewrite Hnone.
Qed.

Lemma GetHiddenAttributes_first (u cat ch r aaen : string)
    (w : gmap string document) :
  GetHiddenAttributes u w = (Ok [], w) ->
  let attr := {| userId := u; category := cat; chValue := ch;
                 rValue := r; aaenId := aaen |} in
  let w1 := snd (CreateHidAtt u cat ch r aaen w) in
  GetHiddenAttributes u w1 = (Ok [DocAttr attr], w1).
Proof.
  intros Hscan attr w1.
  unfold GetHiddenAttributes, getStateByPartialCompositeKey in *.
  revert Hscan. run_tx. intros Hscan.
  assert (Hnone : filter
            (fun kv : string * document =>
               String.prefix (createCompositeKey "ATTR" [u]) kv.1 = true)
            (map_to_list w) = []).
  { injection Hscan as Hscan. apply fmap_nil_inv in Hscan.
    apply Permutation_nil_r. now rewrite <- Hscan, merge_sort_Permutation. }
  unfold w1, CreateHidAtt. run_tx. simpl snd.
  rewrite (scan_first_entry _ _ _ w (attrKey_prefix u cat) Hnone).
  reflexivity.
Qed.

(** X17. The first attribute written for a user is enough for
    [CreateUserVec]: for a non-empty user id and a non-empty category, run
    right after that [CreateHidAtt] it succeeds, with the vector
    [[ch0; ch0; 1]] of the normalized value [ch0]. *)
Lemma CreateHidAtt_then_CreateUserVec (localeCompare : string -> string -> Z)
    (u cat ch r aaen : string) (v : Z) (w : gmap string document) :
  u <> "" ->
  cat <> "" ->
  GetHiddenAttributes u w = (Ok [], w) ->
  BigInt ch = Some v ->
  exists rec w2,
    CreateUserVec localeCompare u (snd (CreateHidAtt u cat ch r aaen w))
      = (Ok rec, w2) /\
    vecS rec = map toString [modP v; modP v; 1].
Proof.
  intros _ _ Hscan Hv.
  pose proof (GetHiddenAttributes_first u cat ch r aaen w Hscan) as H1.
  cbv zeta in H1.
  rewrite (CreateUserVec_run localeCompare u _ _ _ H1 eq_refl).
  - eexists _, _. split; [reflexivity|]. cbn [vecS]. f_equal.
    rewrite buildS_spec. unfold sortByCategory. simpl.
    unfold chOf. simpl. rewrite Hv. simpl.
    apply userVectorSpec_single.
  - simpl. lia.
  - repeat constructor. simpl. rewrite Hv. eauto.
Qed.

(** ** Stored user vectors stay canonical on the public channel *)

Lemma storedCanonical_empty : storedCanonical ∅.
Proof. intros u rec H. now rewrite lookup_empty in H. Qed.

Lemma storedCanonical_insert_other (k : string) (d : document)
    (w : gmap string document) :
  (forall u, k <> createCompositeKey "S" [u]) ->
  storedCanonical w -> storedCanonical (<[k := d]> w).
Proof.
  intros Hk Hw u rec. rewrite lookup_insert_ne by apply Hk. apply Hw.
Qed.

Lemma CreateVec_storedCanonical (o owner c0' ac ck : string)
    (strs : list string) (w w1 : gmap string document) (res : result DataMeta) :
  CreateVec o owner strs c0' ac ck w = (res, w1) ->
  storedCanonical w -> storedCanonical w1.
Proof.
  unfold CreateVec. run_tx. destruct (normalizeStrings strs); intros [= _ <-].
  - apply storedCanonical_insert_other. intros u. apply key_DATA_ne_S.
  - trivial.
Qed.

Lemma DecTest_storedCanonical (ctx : TxContext) (o r : string)
    (w w1 : gmap string document) (res : result AccessRecord) :
  DecTest ctx o r w = (res, w1) ->
  storedCanonical w -> storedCanonical w1.
Proof.
  unfold DecTest, ReadUserVec, GetDataMeta. run_tx.
  destruct (w !! createCompositeKey "S" [r]) as [d|]; [|now intros [= _ <-]].
  destruct (fieldS d); [|now intros [= _ <-]].
  destruct (mapBigInt _); [|now intros [= _ <-]].
  destruct (w !! createCompositeKey "DATA" [o]) as [d'|]; [|now intros [= _ <-]].
  destruct (fieldPolicyVector d'); [|now intros [= _ <-]].
  destruct (mapBigInt _); [|now intros [= _ <-]].
  destruct (innerProductMod _ _); [|now intros [= _ <-]].
  intros [= _ <-] Hw.
  apply storedCanonical_insert_other;
    [intros u; apply key_S_ne_ACCESS_LAST|].
  apply storedCanonical_insert_other; [intros u; apply key_S_ne_ACCESS|].
  exact Hw.
Qed.


(** Empty vectors can be stored in the first place. *)
Lemma empty_vectors_stored (o r owner c0' ac ck : string)
    (w : gmap string document) :
  exists Srec meta w1 w2,
    StoreUserVec r [] w = (Ok Srec, w1) /\
    CreateVec o owner [] c0' ac ck w1 = (Ok meta, w2) /\
    vecS Srec = [] /\ policyVector meta = [] /\
    w2 !! createCompositeKey "S" [r] = Some (DocUserVec Srec) /\
    w2 !! createCompositeKey "DATA" [o] = Some (DocMeta meta).
Proof.
  eexists _, _, _, _.
  split; [exact (StoreUserVec_run r [] [] w eq_refl)|].
  split; [exact (CreateVec_run o owner c0' ac ck [] [] _ eq_refl)|].
  repeat split.
  - rewrite lookup_insert_ne by apply key_DATA_ne_S. apply lookup_insert_eq.
  - apply lookup_insert_eq.
Qed.

(** ** The model at work *)

Example modP_negative : modP (-1) = PRIME_P - 1.
Proof. reflexivity. Qed.

Example modP_above : modP (PRIME_P + 5) = 5.
Proof. reflexivity. Qed.

Example BigInt_signed : BigInt "-12" = Some (-12) /\ BigInt "+4" = Some 4.
Proof. split; reflexivity. Qed.

Example BigInt_malformed : BigInt "1a" = None /\ BigInt "-" = None.
Proof. split; reflexivity. Qed.

Example innerProductMod_example :
  innerProductMod [11; -3] [3; 11] = Ok 0 /\
  innerProductMod [1; 2; 3] [4; 5; 6] = Ok 32.
Proof. split; reflexivity. Qed.

Example pairwise_example : pairwise [2; 3; 5; 7] = [6; 10; 14; 15; 21; 35].
Proof. reflexivity. Qed.

Example indexPairs_example :
  indexPairs 4 = [(0, 1); (0, 2); (0, 3); (1, 2); (1, 3); (2, 3)]%nat.
Proof. reflexivity. Qed.

Example CreateUserVec_no_attributes :
  fst (CreateUserVec codeUnitCompare "carol" exampleAttrLedger)
    = Err (NoHiddenAttributes "carol").
Proof. vm_compute. reflexivity. Qed.


(** * Further properties of the two contracts *)

(** ** The inner product *)

Lemma sumProducts_raw (S P : list Z) :
  sumProducts S P mod PRIME_P = rawInnerProduct S P mod PRIME_P.
Proof.
  unfold sumProducts, rawInnerProduct. revert P.
  induction S as [|s S IH]; intros [|p P]; simpl; try reflexivity.
  rewrite !modP_mod.
  rewrite Z.add_mod by discriminate. rewrite <- Zmult_mod, IH.
  now rewrite <- Z.add_mod by discriminate.
Qed.

Lemma sumProducts_comm (S P : list Z) : sumProducts S P = sumProducts P S.
Proof.
  unfold sumProducts. revert P.
  induction S as [|s S IH]; intros [|p P]; simpl; try reflexivity.
  rewrite IH. f_equal. apply Z.mul_comm.
Qed.

Lemma sum_Permutation (l l' : list Z) :
  l ≡ₚ l' -> foldr Z.add 0 l = foldr Z.add 0 l'.
Proof. induction 1; simpl; lia. Qed.

Lemma zip_with_zip (f : Z -> Z -> Z) (S P : list Z) :
  zip_with f S P = map (fun sp : Z * Z => f sp.1 sp.2) (zip S P).
Proof.
  revert P. induction S as [|s S IH]; intros [|p P]; simpl; try reflexivity.
  f_equal. apply IH.
Qed.

(** X1. For vectors of equal length, [innerProductMod] returns the inner
    product of the integers as submitted, reduced into [0, p): the
    element-wise [modP] of the loop changes nothing of the result, also for
    negative elements and elements beyond [p]. *)
Theorem innerProductMod_raw (S P : list Z) :
  length S = length P ->
  innerProductMod S P = Ok (rawInnerProduct S P mod PRIME_P) /\
  0 <= rawInnerProduct S P mod PRIME_P < PRIME_P.
Proof.
  intros Hlen. split.
  - rewrite innerProductMod_spec by exact Hlen.
    unfold innerProductSpec. now rewrite sumProducts_raw.
  - apply Z.mod_pos_bound, PRIME_P_pos.
Qed.

Lemma innerProductMod_raw_witness :
  innerProductMod [-2; PRIME_P + 3] [5; 4] = Ok 2 /\ 0 <= 2 < PRIME_P.
Proof.
  exact (innerProductMod_raw [-2; PRIME_P + 3] [5; 4] eq_refl).
Defined.

(** X2. [innerProductMod] is symmetric: for vectors of equal length the two
    argument orders give the same value. *)
Theorem innerProductMod_sym (S P : list Z) :
  length S = length P -> innerProductMod S P = innerProductMod P S.
Proof.
  intros Hlen.
  rewrite (innerProductMod_spec S P Hlen).
  rewrite (innerProductMod_spec P S (eq_sym Hlen)).
  unfold innerProductSpec. now rewrite sumProducts_comm.
Qed.

Lemma innerProductMod_sym_witness :
  innerProductMod [11; -3; 7] [3; 11; 2] = innerProductMod [3; 11; 2] [11; -3; 7].
Proof. exact (innerProductMod_sym [11; -3; 7] [3; 11; 2] eq_refl). Defined.

(** X3. [innerProductMod] does not depend on the order of accumulation:
    reordering the positions of both vectors together leaves the result
    unchanged. *)
Theorem innerProductMod_reorder (S P S' P' : list Z) :
  length S = length P ->
  length S' = length P' ->
  zip S P ≡ₚ zip S' P' ->
  innerProductMod S P = innerProductMod S' P'.
Proof.
  intros Hlen Hlen' Hperm.
  rewrite (innerProductMod_spec S P Hlen), (innerProductMod_spec S' P' Hlen').
  unfold innerProductSpec, sumProducts. rewrite !zip_with_zip.
  f_equal. f_equal. apply sum_Permutation.
  change (map ?f ?l) with (f <$> l). now rewrite Hperm.
Qed.

Lemma innerProductMod_reorder_witness :
  innerProductMod [1; 2; 3] [4; 5; 6] = innerProductMod [3; 1; 2] [6; 4; 5].
Proof.
  apply (innerProductMod_reorder [1; 2; 3] [4; 5; 6] [3; 1; 2] [6; 4; 5]);
    [reflexivity|reflexivity|].
  simpl. symmetry. apply Permutation_cons_append with (l := [(1, 4); (2, 5)]).
Defined.

(** X4. Against a policy vector whose elements are all multiples of [p],
    the zero vector in particular, the inner product is [0] whatever the
    other vector holds. *)
Theorem innerProductMod_zero_policy (S P : list Z) :
  length S = length P ->
  Forall (fun v => modP v = 0) P ->
  innerProductMod S P = Ok 0.
Proof.
  intros Hlen Hzero. rewrite (innerProductMod_spec S P Hlen).
  unfold innerProductSpec. f_equal.
  replace (sumProducts S P) with 0; [reflexivity|].
  unfold sumProducts. clear Hlen. revert S.
  induction Hzero as [|p P Hp _ IH]; intros [|s S]; simpl; try reflexivity.
  rewrite Hp, <- IH. lia.
Qed.

Lemma innerProductMod_zero_policy_witness :
  innerProductMod [5; -7; 12] [0; PRIME_P; 0] = Ok 0.
Proof.
  apply (innerProductMod_zero_policy [5; -7; 12] [0; PRIME_P; 0]);
    [reflexivity|].
  repeat constructor.
Defined.

(** ** The decision transaction *)

Lemma DecTest_unfold (ctx : TxContext) (o r : string)
    (w : gmap string document) :
  DecTest ctx o r w =
    match w !! createCompositeKey "S" [r] with
    | None => (Err (NoSVector r), w)
    | Some d =>
        match fieldS d with
        | Err e => (Err e, w)
        | Ok Sstr =>
            match mapBigInt Sstr with
            | Err e => (Err e, w)
            | Ok Sv =>
                match w !! createCompositeKey "DATA" [o] with
                | None => (Err (NoDataMeta o), w)
                | Some d' =>
                    match fieldPolicyVector d' with
                    | Err e => (Err e, w)
                    | Ok Pstr =>
                        match mapBigInt Pstr with
                        | Err e => (Err e, w)
                        | Ok Pv =>
                            match innerProductMod Sv Pv with
                            | Err e => (Err e, w)
                            | Ok ip =>
                                (Ok (decisionRecord ctx o r ip),
                                 <[lastKeyOf o r :=
                                     DocAccess (decisionRecord ctx o r ip)]>
                                   (<[histKeyOf ctx o r :=
                                        DocAccess (decisionRecord ctx o r ip)]> w))
                            end
                        end
                    end
                end
            end
        end
    end.
Proof.
  unfold DecTest, ReadUserVec, GetDataMeta. run_tx.
  destruct (w !! createCompositeKey "S" [r]) as [d|]; [|reflexivity].
  destruct (fieldS d); [|reflexivity].
  destruct (mapBigInt _); [|reflexivity].
  destruct (w !! createCompositeKey "DATA" [o]) as [d'|]; [|reflexivity].
  destruct (fieldPolicyVector d'); [|reflexivity].
  destruct (mapBigInt _); [|reflexivity].
  destruct (innerProductMod _ _); reflexivity.
Qed.

(** X5. Whatever makes [DecTest] throw (a missing vector, a document of the
    wrong shape, a malformed element, a length mismatch), it throws before
    its first write: the world state is left as it was. *)
Theorem DecTest_error_no_write (ctx : TxContext) (o r : string)
    (w w' : gmap string document) (e : error) :
  DecTest ctx o r w = (Err e, w') -> w' = w.
Proof.
  rewrite DecTest_unfold.
  repeat match goal with
         | |- context [match ?x with _ => _ end] => destruct x
         end; intros [= _ <-] || intros [=]; reflexivity.
Qed.

Lemma DecTest_error_no_write_witness :
  snd (DecTest exampleCtx "doc2" "alice" exampleLedger) = exampleLedger.
Proof.
  apply (DecTest_error_no_write exampleCtx "doc2" "alice" exampleLedger _
           (NoDataMeta "doc2")).
  vm_compute. reflexivity.
Defined.

(** X6. For a non-empty requester id, [DecTest] reports a missing vector
    by name: without a user vector for the requester it throws the
    user-vector error, whether or not the object has a policy vector; with a
    readable user vector and, for a non-empty object id, no policy vector
    for the object it throws the policy-vector error. *)
Theorem DecTest_vector_not_found (ctx : TxContext) (o r : string)
    (w : gmap string document) :
  r <> "" ->
  (w !! createCompositeKey "S" [r] = None ->
   DecTest ctx o r w = (Err (NoSVector r), w)) /\
  (o <> "" ->
   forall Srec S,
      w !! createCompositeKey "S" [r] = Some (DocUserVec Srec) ->
      mapBigInt (vecS Srec) = Ok S ->
      w !! createCompositeKey "DATA" [o] = None ->
      DecTest ctx o r w = (Err (NoDataMeta o), w)).
Proof.
  intros _. split; [|intros _].
  - intros HS. rewrite DecTest_unfold. now rewrite HS.
  - intros Srec S HS HSv HP. rewrite DecTest_unfold.
    rewrite HS. simpl. now rewrite HSv, HP.
Qed.

Lemma DecTest_vector_not_found_witness :
  DecTest exampleCtx "doc1" "bob" exampleLedger
    = (Err (NoSVector "bob"), exampleLedger) /\
  DecTest exampleCtx "doc2" "alice" exampleLedger
    = (Err (NoDataMeta "doc2"), exampleLedger).
Proof.
  split.
  - apply (proj1 (DecTest_vector_not_found exampleCtx "doc1" "bob"
                    exampleLedger ltac:(discriminate))).
    vm_compute. reflexivity.
  - apply (proj2 (DecTest_vector_not_found exampleCtx "doc2" "alice"
                    exampleLedger ltac:(discriminate)) ltac:(discriminate)
             {| vecUserId := "alice"; vecS := ["11"; toString (PRIME_P - 3)] |}
             [11; PRIME_P - 3]);
      vm_compute; reflexivity.
Defined.

(** X7. A successful [DecTest] writes its two access entries and nothing
    else; the vectors it read are still there, so deciding again for the
    same pair, under any transaction context, succeeds with the same verdict
    and the same inner product. *)
Theorem DecTest_repeatable (ctx : TxContext) (o r : string)
    (w w' : gmap string document) (a : AccessRecord) :
  DecTest ctx o r w = (Ok a, w') ->
  (forall k,
      k <> createCompositeKey "ACCESS" [o; r; txID ctx] ->
      k <> createCompositeKey "ACCESS_LAST" [o; r] ->
      w' !! k = w !! k) /\
  (forall ctx', exists a' w'',
      DecTest ctx' o r w' = (Ok a', w'') /\
      allowed a' = allowed a /\
      innerProduct a' = innerProduct a).
Proof.
  rewrite DecTest_unfold.
  destruct (w !! createCompositeKey "S" [r]) as [d|] eqn:HS; [|intros [=]].
  destruct (fieldS d) as [Sstr|] eqn:Hd; [|intros [=]].
  destruct (mapBigInt Sstr) as [S|] eqn:HSv; [|intros [=]].
  destruct (w !! createCompositeKey "DATA" [o]) as [d'|] eqn:HP; [|intros [=]].
  destruct (fieldPolicyVector d') as [Pstr|] eqn:Hd'; [|intros [=]].
  destruct (mapBigInt Pstr) as [P|] eqn:HPv; [|intros [=]].
  destruct (innerProductMod S P) as [ip|] eqn:Hip; [|intros [=]].
  intros [= <- <-]. split.
  - intros k Hh Hl. unfold lastKeyOf, histKeyOf.
    rewrite lookup_insert_ne by (intros E; now apply Hl).
    now rewrite lookup_insert_ne by (intros E; now apply Hh).
  - intros ctx'. rewrite DecTest_unfold.
    rewrite !(DecTest_keeps_inputs ctx o r) by auto.
    rewrite HS, Hd, HSv, HP, Hd', HPv, Hip.
    eexists _, _. split; [reflexivity|]. split; reflexivity.
Qed.

Lemma DecTest_repeatable_witness :
  exists a' w'',
    DecTest exampleCtx' "doc1" "alice"
      (snd (DecTest exampleCtx "doc1" "alice" exampleLedger)) = (Ok a', w'') /\
    allowed a' = true /\ innerProduct a' = "0".
Proof.
  destruct (DecTest_repeatable exampleCtx "doc1" "alice" exampleLedger
              (snd (DecTest exampleCtx "doc1" "alice" exampleLedger))
              (decisionRecord exampleCtx "doc1" "alice" 0))
    as [_ Hagain].
  - vm_compute. reflexivity.
  - destruct (Hagain exampleCtx') as (a' & w'' & Hrun & Hal & Hip).
    exists a', w''. split; [exact Hrun|]. split; [exact Hal|exact Hip].
Defined.

Lemma sumProducts_normalized (S P : list Z) :
  sumProducts (map modP S) (map modP P) = sumProducts S P.
Proof.
  unfold sumProducts. revert P.
  induction S as [|s S IH]; intros [|p P]; simpl; try reflexivity.
  now rewrite IH, !modP_idem.
Qed.

Lemma Tx_seq {A B : Type} (m : Tx A) (k : Tx B) (w : gmap string document) :
  (m;; k) w =
    match m w with
    | (Ok _, w1) => k w1
    | (Err e, w1) => (Err e, w1)
    end.
Proof. reflexivity. Qed.

(** X8. The three transactions of a decision compose, for non-empty
    requester and object ids: after [StoreUserVec] of a vector [S] and
    [CreateVec] of a vector [P] of the same length, [DecTest] allows the
    access exactly when the inner product of the integers as submitted is a
    multiple of [p], and records that inner product reduced into [0, p). *)
Theorem StoreUserVec_CreateVec_DecTest (ctx : TxContext)
    (o r owner c0' ac ck : string) (sStrs pStrs : list string)
    (S P : list Z) (w : gmap string document) :
  r <> "" ->
  o <> "" ->
  mapBigInt sStrs = Ok S ->
  mapBigInt pStrs = Ok P ->
  length S = length P ->
  exists a w3,
    DecTest ctx o r
      (snd ((StoreUserVec r sStrs;; CreateVec o owner pStrs c0' ac ck) w))
      = (Ok a, w3) /\
    allowed a = (rawInnerProduct S P mod PRIME_P =? 0) /\
    innerProduct a = toString (rawInnerProduct S P mod PRIME_P).
Proof.
  intros _ _ HS HP Hlen.
  rewrite Tx_seq, (StoreUserVec_run r sStrs S w HS).
  rewrite (CreateVec_run o owner c0' ac ck pStrs P _ HP). cbn [snd].
  rewrite (DecTest_run ctx o r _
             {| vecUserId := r;
                vecS := map (fun v => toString (modP v)) S |}
             {| metaObjectId := o; metaOwnerId := owner;
                policyVector := map (fun v => toString (modP v)) P;
                c0 := c0'; addressCipher := ac; ctKeyPart := ck |}
             (map modP S) (map modP P)).
  - rewrite innerProductMod_spec by (now rewrite !length_map).
    unfold innerProductSpec.
    rewrite sumProducts_normalized, sumProducts_raw.
    eexists _, _. split; [reflexivity|]. split; reflexivity.
  - rewrite lookup_insert_ne by apply key_DATA_ne_S. apply lookup_insert_eq.
  - apply lookup_insert_eq.
  - apply mapBigInt_normalized.
  - apply mapBigInt_normalized.
Qed.

Lemma StoreUserVec_CreateVec_DecTest_witness :
  exists a w3,
    DecTest exampleCtx "doc1" "alice" exampleLedger = (Ok a, w3) /\
    allowed a = (rawInnerProduct [11; -3] [3; 11] mod PRIME_P =? 0) /\
    innerProduct a = toString (rawInnerProduct [11; -3] [3; 11] mod PRIME_P).
Proof.
  exact (StoreUserVec_CreateVec_DecTest exampleCtx "doc1" "alice" "owner1"
           "YzA=" "YWRkcg==" "Y3Q=" ["11"; "-3"] ["3"; "11"] [11; -3] [3; 11]
           ∅ ltac:(discriminate) ltac:(discriminate)
           eq_refl eq_refl eq_refl).
Defined.

(** ** Writing and reading vectors on the public channel *)

Lemma key1_inj (t a b : string) :
  createCompositeKey t [a] = createCompositeKey t [b] -> a = b.
Proof.
  unfold createCompositeKey. simpl. intros H. injection H as H.
  apply (inj (String.app t)) in H. injection H as H.
  now apply string_app_inv_tail in H.
Qed.

(** X9. [CreateVec] is an overwrite keyed by the object id alone: of two
    calls for one object of non-empty id the second one wins, whoever the
    two name as owner, and the policy vector of every other object reads as
    before. *)
Theorem CreateVec_last_write_wins (o owner1 owner2 c1 a1 k1 c2 a2 k2 : string)
    (strs1 strs2 : list string) (raw1 raw2 : list Z)
    (w : gmap string document) :
  o <> "" ->
  mapBigInt strs1 = Ok raw1 ->
  mapBigInt strs2 = Ok raw2 ->
  let w2 := snd ((CreateVec o owner1 strs1 c1 a1 k1;;
                  CreateVec o owner2 strs2 c2 a2 k2) w) in
  (exists meta,
      GetDataMeta o w2 = (Ok (DocMeta meta), w2) /\
      metaOwnerId meta = owner2 /\
      policyVector meta = map (fun v => toString (modP v)) raw2) /\
  (forall o', o' <> o -> fst (GetDataMeta o' w2) = fst (GetDataMeta o' w)).
Proof.
  intros _ H1 H2 w2. unfold w2.
  rewrite Tx_seq, (CreateVec_run o owner1 c1 a1 k1 strs1 raw1 w H1).
  rewrite (CreateVec_run o owner2 c2 a2 k2 strs2 raw2 _ H2). cbn [snd].
  split.
  - eexists. unfold GetDataMeta. run_tx. rewrite lookup_insert_eq.
    split; [reflexivity|]. split; reflexivity.
  - intros o' Ho. unfold GetDataMeta. run_tx.
    rewrite !lookup_insert_ne
      by (intros E; apply Ho; symmetry; exact (key1_inj _ _ _ E)).
    destruct (w !! createCompositeKey "DATA" [o']); reflexivity.
Qed.

Lemma CreateVec_last_write_wins_witness :
  let w2 := snd ((CreateVec "doc1" "owner1" ["1"; "2"] "a" "b" "c";;
                  CreateVec "doc1" "mallory" ["0"; "0"] "x" "y" "z") ∅) in
  (exists meta,
      GetDataMeta "doc1" w2 = (Ok (DocMeta meta), w2) /\
      metaOwnerId meta = "mallory" /\
      policyVector meta = map (fun v => toString (modP v)) [0; 0]) /\
  (forall o', o' <> "doc1" -> fst (GetDataMeta o' w2) = fst (GetDataMeta o' ∅)).
Proof.
  exact (CreateVec_last_write_wins "doc1" "owner1" "mallory" "a" "b" "c"
           "x" "y" "z" ["1"; "2"] ["0"; "0"] [1; 2] [0; 0] ∅
           ltac:(discriminate) eq_refl eq_refl).
Defined.

(** X10. [StoreUserVec] is an overwrite keyed by the user id: of two calls
    for one user of non-empty id the second one wins, and the vector of
    every other user reads as before. *)
Theorem StoreUserVec_last_write_wins (u : string) (strs1 strs2 : list string)
    (raw1 raw2 : list Z) (w : gmap string document) :
  u <> "" ->
  mapBigInt strs1 = Ok raw1 ->
  mapBigInt strs2 = Ok raw2 ->
  let w2 := snd ((StoreUserVec u strs1;; StoreUserVec u strs2) w) in
  (exists rec,
      ReadUserVec u w2 = (Ok (DocUserVec rec), w2) /\
      vecS rec = map (fun v => toString (modP v)) raw2) /\
  (forall u', u' <> u -> fst (ReadUserVec u' w2) = fst (ReadUserVec u' w)).
Proof.
  intros _ H1 H2 w2. unfold w2.
  rewrite Tx_seq, (StoreUserVec_run u strs1 raw1 w H1).
  rewrite (StoreUserVec_run u strs2 raw2 _ H2). cbn [snd].
  split.
  - eexists. unfold ReadUserVec. run_tx. rewrite lookup_insert_eq.
    split; reflexivity.
  - intros u' Hu. unfold ReadUserVec. run_tx.
    rewrite !lookup_insert_ne
      by (intros E; apply Hu; symmetry; exact (key1_inj _ _ _ E)).
    destruct (w !! createCompositeKey "S" [u']); reflexivity.
Qed.

Lemma StoreUserVec_last_write_wins_witness :
  let w2 := snd ((StoreUserVec "alice" ["1"; "2"];;
                  StoreUserVec "alice" ["-1"]) ∅) in
  (exists rec,
      ReadUserVec "alice" w2 = (Ok (DocUserVec rec), w2) /\
      vecS rec = map (fun v => toString (modP v)) [-1]) /\
  (forall u', u' <> "alice" ->
              fst (ReadUserVec u' w2) = fst (ReadUserVec u' ∅)).
Proof.
  exact (StoreUserVec_last_write_wins "alice" ["1"; "2"] ["-1"] [1; 2] [-1]
           ∅ ltac:(discriminate) eq_refl eq_refl).
Defined.

(** X11. Normalization is a fixed point on what it stores: for a non-empty
    object id, handing the policy vector that [CreateVec] stored back to
    [CreateVec], with the same other arguments, returns the same record and
    leaves the world state unchanged. *)
Theorem CreateVec_stored_again (o owner c0' ac ck : string)
    (strs : list string) (raw : list Z) (w : gmap string document) :
  o <> "" ->
  mapBigInt strs = Ok raw ->
  exists meta w1,
    CreateVec o owner strs c0' ac ck w = (Ok meta, w1) /\
    CreateVec o owner (policyVector meta) c0' ac ck w1 = (Ok meta, w1).
Proof.
  intros _ Hraw. rewrite (CreateVec_run o owner c0' ac ck strs raw w Hraw).
  eexists _, _. split; [reflexivity|]. cbn [policyVector].
  rewrite (CreateVec_run o owner c0' ac ck _ (map modP raw) _
             (mapBigInt_normalized raw)).
  rewrite map_map.
  rewrite (map_ext (fun x => toString (modP (modP x)))
                   (fun x => toString (modP x)))
    by (intros x; now rewrite modP_idem).
  now rewrite insert_insert_eq.
Qed.

Lemma CreateVec_stored_again_witness :
  exists meta w1,
    CreateVec "doc1" "owner1" ["-1"; "7"] "a" "b" "c" ∅ = (Ok meta, w1) /\
    CreateVec "doc1" "owner1" (policyVector meta) "a" "b" "c" w1
      = (Ok meta, w1).
Proof.
  exact (CreateVec_stored_again "doc1" "owner1" "a" "b" "c" ["-1"; "7"]
           [-1; 7] ∅ ltac:(discriminate) eq_refl).
Defined.


(** ** Scanning the attribute channel *)

#[local] Instance keyLe_trans : Transitive keyLe.
Proof. intros a b c. unfold keyLe. apply transitivity. Qed.

#[local] Instance keyLe_total : Total keyLe.
Proof. intros a b. unfold keyLe. apply String.le_total. Qed.

Lemma scan_entries (t : string) (attrs : list string)
    (w : gmap string document) :
  getStateByPartialCompositeKey t attrs w
    = (Ok (entriesWithPrefix (createCompositeKey t attrs) w), w).
Proof. reflexivity. Qed.

Lemma GetHiddenAttributes_entries (u : string) (w : gmap string document) :
  GetHiddenAttributes u w
    = (Ok (map snd (entriesWithPrefix (createCompositeKey "ATTR" [u]) w)), w).
Proof. reflexivity. Qed.

Lemma NoDup_fmap_eq {A B : Type} (f : A -> B) (l : list A) (x y : A) :
  NoDup (f <$> l) -> x ∈ l -> y ∈ l -> f x = f y -> x = y.
Proof.
  induction l as [|a l IH]; intros Hnd Hx Hy E.
  - now apply not_elem_of_nil in Hx.
  - rewrite fmap_cons in Hnd. apply NoDup_cons in Hnd as [Ha Hnd].
    apply elem_of_cons in Hx as [->|Hx], Hy as [->|Hy].
    + reflexivity.
    + exfalso. apply Ha. rewrite E. now apply list_elem_of_fmap_2.
    + exfalso. apply Ha. rewrite <- E. now apply list_elem_of_fmap_2.
    + now apply IH.
Qed.

(** Entries with distinct keys have one sorted arrangement. *)
Lemma sorted_entries_unique (l1 l2 : list (string * document)) :
  NoDup (l1.*1) -> l1 ≡ₚ l2 ->
  merge_sort keyLe l1 = merge_sort keyLe l2.
Proof.
  intros Hnd Hperm.
  apply (Sorted_unique_strong keyLe).
  - intros x1 x2 H1 H2 H12 H21.
    rewrite merge_sort_Permutation in H1.
    rewrite merge_sort_Permutation, <- Hperm in H2.
    apply (NoDup_fmap_eq fst l1); try assumption.
    apply (anti_symm String.le); assumption.
  - apply Sorted_merge_sort, _.
  - apply Sorted_merge_sort, _.
  - now rewrite !merge_sort_Permutation.
Qed.

Lemma filtered_entries_NoDup (pre : string) (w : gmap string document) :
  NoDup ((filter (fun kv : string * document => String.prefix pre kv.1 = true)
                 (map_to_list w)).*1).
Proof.
  apply (sublist_NoDup _ ((map_to_list w).*1)).
  - apply NoDup_fst_map_to_list.
  - apply fmap_sublist, sublist_filter.
Qed.

(** Two world states that agree on the keys with the prefix scan alike. *)
Lemma entriesWithPrefix_agree (pre : string) (w w' : gmap string document) :
  (forall k, String.prefix pre k = true -> w' !! k = w !! k) ->
  entriesWithPrefix pre w' = entriesWithPrefix pre w.
Proof.
  intros Hagree. unfold entriesWithPrefix.
  apply sorted_entries_unique; [apply filtered_entries_NoDup|].
  apply NoDup_Permutation.
  - apply NoDup_filter, NoDup_map_to_list.
  - apply NoDup_filter, NoDup_map_to_list.
  - intros [k d]. rewrite !list_elem_of_filter, !elem_of_map_to_list. simpl.
    split; intros [Hk Hd]; (split; [exact Hk|]);
      [rewrite <- Hagree|rewrite Hagree]; assumption.
Qed.

Lemma entriesWithPrefix_insert_other (pre k : string) (d : document)
    (w : gmap string document) :
  String.prefix pre k = false ->
  entriesWithPrefix pre (<[k := d]> w) = entriesWithPrefix pre w.
Proof.
  intros Hk. apply entriesWithPrefix_agree. intros k' Hk'.
  apply lookup_insert_ne. intros ->. congruence.
Qed.

Lemma entriesWithPrefix_elem (pre : string) (w : gmap string document)
    (k : string) (d : document) :
  (k, d) ∈ entriesWithPrefix pre w
  <-> String.prefix pre k = true /\ w !! k = Some d.
Proof.
  unfold entriesWithPrefix.
  rewrite merge_sort_Permutation, list_elem_of_filter, elem_of_map_to_list.
  reflexivity.
Qed.

Lemma CreateUserVec_unfold (localeCompare : string -> string -> Z)
    (u : string) (w : gmap string document) :
  CreateUserVec localeCompare u w =
    match map snd (entriesWithPrefix (createCompositeKey "ATTR" [u]) w) with
    | [] => (Err (NoHiddenAttributes u), w)
    | d :: ds =>
        match asAttrs (d :: ds) with
        | Err e => (Err e, w)
        | Ok attrs =>
            match mapBigInt (map chValue (sortByCategory localeCompare attrs)) with
            | Err e => (Err e, w)
            | Ok raw =>
                let rec :=
                  {| vecUserId := u;
                     vecS := map toString (buildS (map modP raw)) |} in
                (Ok rec, <[createCompositeKey "USERVEC" [u] := DocUserVec rec]> w)
            end
        end
    end.
Proof.
  unfold CreateUserVec. unfold mbind at 1. unfold Tx_bind at 1.
  rewrite GetHiddenAttributes_entries.
  destruct (map snd _) as [|d ds]; [reflexivity|].
  run_tx. destruct (asAttrs (d :: ds)); [|reflexivity].
  destruct (mapBigInt _); reflexivity.
Qed.

Lemma CreateUserVec_result_scan (localeCompare : string -> string -> Z)
    (u : string) (w w' : gmap string document) :
  entriesWithPrefix (createCompositeKey "ATTR" [u]) w'
    = entriesWithPrefix (createCompositeKey "ATTR" [u]) w ->
  fst (CreateUserVec localeCompare u w') = fst (CreateUserVec localeCompare u w).
Proof.
  intros H. rewrite !CreateUserVec_unfold, H.
  destruct (map snd _) as [|d ds]; [reflexivity|].
  destruct (asAttrs (d :: ds)); [|reflexivity].
  destruct (mapBigInt _); reflexivity.
Qed.

Lemma userVecKey_not_attr (u u' : string) :
  String.prefix (createCompositeKey "ATTR" [u])
                (createCompositeKey "USERVEC" [u']) = false.
Proof. reflexivity. Qed.

(** X12. [CreateUserVec] writes the cache entry of the user and nothing
    else, and nothing at all when it throws; the hidden attributes stay as
    they were, so running it again at once returns the same vector and
    changes nothing more. *)
Theorem CreateUserVec_recompute (localeCompare : string -> string -> Z)
    (u : string) (w w1 : gmap string document) (res : result UserVec) :
  CreateUserVec localeCompare u w = (res, w1) ->
  (forall k, k <> createCompositeKey "USERVEC" [u] -> w1 !! k = w !! k) /\
  (forall e, res = Err e -> w1 = w) /\
  CreateUserVec localeCompare u w1 = (res, w1).
Proof.
  intros Hrun.
  assert (Hscan : entriesWithPrefix (createCompositeKey "ATTR" [u]) w1
                  = entriesWithPrefix (createCompositeKey "ATTR" [u]) w).
  { revert Hrun. rewrite CreateUserVec_unfold.
    destruct (map snd _) as [|d ds]; [now intros [= _ <-]|].
    destruct (asAttrs (d :: ds)); [|now intros [= _ <-]].
    destruct (mapBigInt _); [|now intros [= _ <-]].
    intros [= _ <-].
    apply entriesWithPrefix_insert_other, userVecKey_not_attr. }
  revert Hrun. rewrite (CreateUserVec_unfold localeCompare u w1), Hscan.
  rewrite CreateUserVec_unfold.
  destruct (map snd _) as [|d ds];
    [intros [= <- <-]; repeat split; congruence|].
  destruct (asAttrs (d :: ds));
    [|intros [= <- <-]; repeat split; congruence].
  destruct (mapBigInt _);
    [|intros [= <- <-]; repeat split; congruence].
  intros [= <- <-]. split; [|split].
  - intros k Hk. now apply lookup_insert_ne.
  - intros e [=].
  - cbv zeta. now rewrite insert_insert_eq.
Qed.

Lemma CreateUserVec_recompute_witness :
  let w1 := snd (CreateUserVec codeUnitCompare "bob" exampleAttrLedger) in
  CreateUserVec codeUnitCompare "bob" w1
    = (Ok {| vecUserId := "bob";
             vecS := ["1001000"; "1001000"; "1000"; "1001"; "1"] |}, w1).
Proof.
  intros w1.
  apply (CreateUserVec_recompute codeUnitCompare "bob" exampleAttrLedger w1).
  vm_compute. reflexivity.
Defined.

Lemma prefix_cons (a b : ascii) (s t : string) :
  String.prefix (String a s) (String b t)
    = if ascii_dec a b then String.prefix s t else false.
Proof. reflexivity. Qed.

Lemma string_app_nil (s : string) : "" +:+ s = s.
Proof. reflexivity. Qed.

Lemma string_app_cons (c : ascii) (s t : string) :
  String c s +:+ t = String c (s +:+ t).
Proof. reflexivity. Qed.

Lemma prefix_separator (u u' rest : string) :
  nulFree u = true -> nulFree u' = true ->
  String.prefix (u +:+ String NUL "") (u' +:+ String NUL rest) = true ->
  u = u'.
Proof.
  revert u'. induction u as [|c u IH]; intros [|c' u'] Hu Hu' Hpre;
    try reflexivity;
    rewrite ?string_app_nil, ?string_app_cons, prefix_cons in Hpre;
    simpl nulFree in *.
  - destruct (ascii_dec NUL c') as [<-|]; [|discriminate].
    now rewrite Ascii.eqb_refl in Hu'.
  - destruct (ascii_dec c NUL) as [->|]; [|discriminate].
    now rewrite Ascii.eqb_refl in Hu.
  - destruct (ascii_dec c c') as [<-|]; [|discriminate].
    apply andb_prop in Hu as [_ Hu], Hu' as [_ Hu'].
    f_equal. now apply IH.
Qed.

Lemma attrKey_other_user (u u' cat : string) :
  nulFree u = true -> nulFree u' = true -> u <> u' ->
  String.prefix (createCompositeKey "ATTR" [u])
                (createCompositeKey "ATTR" [u'; cat]) = false.
Proof.
  intros Hu Hu' Hne.
  destruct (String.prefix _ _) eqn:E; [|reflexivity].
  exfalso. apply Hne. unfold createCompositeKey in E.
  simpl foldr in E. rewrite ?string_app_nil, ?string_app_cons in E.
  repeat (rewrite prefix_cons in E;
          match type of E with
          | context [ascii_dec ?a ?a] =>
              destruct (ascii_dec a a); [|congruence]
          end).
  exact (prefix_separator u u' _ Hu Hu' E).
Qed.

(** X13. Users do not see each other's attributes: for two different user
    ids without the separator U+0000 in them, an attribute written for the
    one changes neither the attribute list nor the vector computed for the
    other. *)
Theorem CreateHidAtt_other_user (localeCompare : string -> string -> Z)
    (u u' cat ch r aaen : string) (w : gmap string document) :
  nulFree u = true -> nulFree u' = true -> u <> u' ->
  let w1 := snd (CreateHidAtt u' cat ch r aaen w) in
  fst (GetHiddenAttributes u w1) = fst (GetHiddenAttributes u w) /\
  fst (CreateUserVec localeCompare u w1) = fst (CreateUserVec localeCompare u w).
Proof.
  intros Hu Hu' Hne w1.
  assert (Hscan : entriesWithPrefix (createCompositeKey "ATTR" [u]) w1
                  = entriesWithPrefix (createCompositeKey "ATTR" [u]) w).
  { unfold w1, CreateHidAtt. run_tx. cbn [snd].
    now apply entriesWithPrefix_insert_other, attrKey_other_user. }
  split.
  - rewrite !GetHiddenAttributes_entries. cbn [fst]. now rewrite Hscan.
  - now apply CreateUserVec_result_scan.
Qed.

Lemma CreateHidAtt_other_user_witness :
  let w1 := snd (CreateHidAtt "carol" "c0" "7" "9" "AA2" exampleAttrLedger) in
  fst (GetHiddenAttributes "bob" w1)
    = fst (GetHiddenAttributes "bob" exampleAttrLedger) /\
  fst (CreateUserVec codeUnitCompare "bob" w1)
    = fst (CreateUserVec codeUnitCompare "bob" exampleAttrLedger).
Proof.
  apply (CreateHidAtt_other_user codeUnitCompare "bob" "carol" "c0" "7" "9"
           "AA2" exampleAttrLedger); [reflexivity|reflexivity|discriminate].
Defined.

Lemma key2_inj (t a b b' : string) :
  createCompositeKey t [a; b] = createCompositeKey t [a; b'] -> b = b'.
Proof.
  unfold createCompositeKey. simpl. intros H. injection H as H.
  apply (inj (String.app t)) in H. injection H as H.
  apply (inj (String.app a)) in H. injection H as H.
  now apply string_app_inv_tail in H.
Qed.

(** X14. The order in which two attributes of different categories are
    written for a user does not matter: both orders leave the same world
    state, hence the same vector. *)
Theorem CreateHidAtt_commute (u cat1 ch1 r1 aaen1 cat2 ch2 r2 aaen2 : string)
    (w : gmap string document) :
  cat1 <> cat2 ->
  snd ((CreateHidAtt u cat1 ch1 r1 aaen1;;
        CreateHidAtt u cat2 ch2 r2 aaen2) w)
  = snd ((CreateHidAtt u cat2 ch2 r2 aaen2;;
          CreateHidAtt u cat1 ch1 r1 aaen1) w).
Proof.
  intros Hne. unfold CreateHidAtt. rewrite !Tx_seq. run_tx. cbn [snd].
  apply insert_insert_ne. intros E. apply Hne. symmetry.
  exact (key2_inj _ _ _ _ E).
Qed.

Lemma CreateHidAtt_commute_witness :
  snd ((CreateHidAtt "bob" "c1" "1001" "2001" "AA1";;
        CreateHidAtt "bob" "c0" "1000" "2000" "AA1") ∅)
  = snd ((CreateHidAtt "bob" "c0" "1000" "2000" "AA1";;
          CreateHidAtt "bob" "c1" "1001" "2001" "AA1") ∅).
Proof.
  apply (CreateHidAtt_commute "bob" "c1" "1001" "2001" "AA1"
           "c0" "1000" "2000" "AA1" ∅).
  discriminate.
Defined.

Lemma buildS_in_range (raw : list Z) :
  Forall (fun v => 0 <= v < PRIME_P) (buildS (map modP raw)).
Proof.
  rewrite buildS_spec. unfold userVectorSpec.
  constructor; [apply Z.mod_pos_bound, PRIME_P_pos|].
  apply Forall_app. split; [|apply Forall_app; split].
  - unfold pairProducts. apply Forall_forall. intros x Hx.
    apply list_elem_of_fmap in Hx as [ij [-> _]].
    apply Z.mod_pos_bound, PRIME_P_pos.
  - apply normalized_in_range.
  - constructor; [split; [lia|reflexivity]|constructor].
Qed.

Lemma map_toString_modP_small (vs : list Z) :
  Forall (fun v => 0 <= v < PRIME_P) vs ->
  map (fun v => toString (modP v)) vs = map toString vs.
Proof.
  induction 1 as [|v vs Hv _ IH]; simpl; [reflexivity|].
  now rewrite IH, modP_small.
Qed.

(** X15. Every element of the vector [CreateUserVec] returns is the decimal
    text of a residue in [0, p); handed to [StoreUserVec] on the public
    channel it is stored as it is, under the same record. *)
Theorem CreateUserVec_then_StoreUserVec
    (localeCompare : string -> string -> Z) (u : string)
    (w w1 : gmap string document) (rec : UserVec) :
  CreateUserVec localeCompare u w = (Ok rec, w1) ->
  Forall canonical (vecS rec) /\
  (forall wPub,
      StoreUserVec u (vecS rec) wPub
        = (Ok rec, <[createCompositeKey "S" [u] := DocUserVec rec]> wPub)).
Proof.
  rewrite CreateUserVec_unfold.
  destruct (map snd _) as [|d ds]; [intros [=]|].
  destruct (asAttrs (d :: ds)); [|intros [=]].
  destruct (mapBigInt _) as [raw|]; [|intros [=]].
  intros [= <- _]. cbn [vecS].
  change (toString (prodAll (map modP raw)) :: _)
    with (map toString (buildS (map modP raw))).
  split.
  - rewrite <- (map_toString_modP_small _ (buildS_in_range raw)).
    apply normalized_canonical.
  - intros wPub.
    rewrite (StoreUserVec_run u _ _ wPub (mapBigInt_toString _)).
    now rewrite (map_toString_modP_small _ (buildS_in_range raw)).
Qed.

Lemma CreateUserVec_then_StoreUserVec_witness :
  let rec := {| vecUserId := "bob";
                vecS := ["1001000"; "1001000"; "1000"; "1001"; "1"] |} in
  Forall canonical (vecS rec) /\
  (forall wPub,
      StoreUserVec "bob" (vecS rec) wPub
        = (Ok rec, <[createCompositeKey "S" ["bob"] := DocUserVec rec]> wPub)).
Proof.
  intros rec.
  apply (CreateUserVec_then_StoreUserVec codeUnitCompare "bob"
           exampleAttrLedger
           (snd (CreateUserVec codeUnitCompare "bob" exampleAttrLedger)) rec).
  vm_compute. reflexivity.
Defined.

(** X16. [CreateHidAtt] is an overwrite keyed by user and category, both
    non-empty: writing a category a second time replaces the first value,
    and the attribute count does not grow.  For a user without attributes,
    two writes of one category followed by [CreateUserVec] give the
    one-attribute vector of the second value. *)
Theorem CreateHidAtt_overwrites (localeCompare : string -> string -> Z)
    (u cat ch1 r1 aaen1 ch2 r2 aaen2 : string) (v : Z)
    (w : gmap string document) :
  u <> "" ->
  cat <> "" ->
  GetHiddenAttributes u w = (Ok [], w) ->
  BigInt ch2 = Some v ->
  let w2 := snd ((CreateHidAtt u cat ch1 r1 aaen1;;
                  CreateHidAtt u cat ch2 r2 aaen2) w) in
  w2 = snd (CreateHidAtt u cat ch2 r2 aaen2 w) /\
  fst (GetHiddenAttributes u w2)
    = Ok [DocAttr {| userId := u; category := cat; chValue := ch2;
                     rValue := r2; aaenId := aaen2 |}] /\
  exists rec w3,
    CreateUserVec localeCompare u w2 = (Ok rec, w3) /\
    vecS rec = map toString [modP v; modP v; 1].
Proof.
  intros _ _ Hscan Hv w2.
  assert (Hw2 : w2 = snd (CreateHidAtt u cat ch2 r2 aaen2 w)).
  { unfold w2, CreateHidAtt. rewrite Tx_seq. run_tx. cbn [snd].
    apply insert_insert_eq. }
  pose proof (GetHiddenAttributes_first u cat ch2 r2 aaen2 w Hscan) as H1.
  cbv zeta in H1. rewrite <- Hw2 in H1.
  split; [exact Hw2|]. split; [now rewrite H1|].
  rewrite (CreateUserVec_run localeCompare u _ _ _ H1 eq_refl).
  - eexists _, _. split; [reflexivity|]. cbn [vecS]. f_equal.
    rewrite buildS_spec. unfold sortByCategory. simpl.
    unfold chOf. simpl. rewrite Hv. simpl.
    apply userVectorSpec_single.
  - simpl. lia.
  - repeat constructor. simpl. rewrite Hv. eauto.
Qed.

Lemma CreateHidAtt_overwrites_witness :
  exists rec w3,
    CreateUserVec codeUnitCompare "dave"
      (snd ((CreateHidAtt "dave" "c0" "5" "1" "AA1";;
             CreateHidAtt "dave" "c0" "-1" "2" "AA2") exampleAttrLedger))
      = (Ok rec, w3) /\
    vecS rec = map toString [modP (-1); modP (-1); 1].
Proof.
  destruct (CreateHidAtt_overwrites codeUnitCompare "dave" "c0" "5" "1" "AA1"
              "-1" "2" "AA2" (-1) exampleAttrLedger) as (_ & _ & H).
  - discriminate.
  - discriminate.
  - vm_compute. reflexivity.
  - reflexivity.
  - exact H.
Defined.


Lemma CreateHidAtt_then_CreateUserVec_witness :
  exists rec w2,
    CreateUserVec codeUnitCompare "erin"
      (snd (CreateHidAtt "erin" "role" "-4" "77" "AA3" exampleAttrLedger))
      = (Ok rec, w2) /\
    vecS rec = map toString [modP (-4); modP (-4); 1].
Proof.
  apply (CreateHidAtt_then_CreateUserVec codeUnitCompare "erin" "role" "-4"
           "77" "AA3" (-4) exampleAttrLedger).
  - discriminate.
  - discriminate.
  - vm_compute. reflexivity.
  - reflexivity.
Defined.

(** ** The canonical order *)





(** ** Where each product sits in the vector *)

Lemma lookup_nth_lt (l : list Z) (i : nat) :
  (i < length l)%nat -> l !! i = Some (nth i l 0).
Proof.
  revert i. induction l as [|x l IH]; intros [|i] Hi; simpl in *;
    try lia; [reflexivity|]. apply IH. lia.
Qed.

Lemma pairwise_lookup (ch : list Z) (i j pos : nat) :
  (i < j < length ch)%nat ->
  (2 * pos + (i + 1) * (i + 2) = 2 * (i * length ch + j))%nat ->
  pairwise ch !! pos = Some (modP (nth i ch 0 * nth j ch 0)).
Proof.
  revert i j pos. induction ch as [|x l IH]; intros i j pos Hij Hpos.
  - simpl in Hij. lia.
  - rewrite pairwise_cons. simpl length in *.
    destruct j as [|j]; [lia|]. destruct i as [|i].
    + assert (pos = j) by lia. subst pos.
      apply lookup_app_l_Some. change (map ?f l) with (f <$> l).
      rewrite list_lookup_fmap, (lookup_nth_lt l j) by lia. reflexivity.
    + assert (Hge : (length l <= pos)%nat) by nia.
      rewrite lookup_app_r by (rewrite length_map; exact Hge).
      rewrite length_map. simpl nth.
      apply IH; [lia|]. nia.
Qed.

(** X19. The layout of the vector over [n] normalized values: the product of
    all of them at position 0; the product of the pair [i < j] at position
    [1 + i*n + j - (i+1)(i+2)/2]; the single [i] at position
    [1 + n(n-1)/2 + i]; the constant 1 last. *)
Theorem buildS_layout (ch : list Z) :
  let n := length ch in
  buildS ch !! 0%nat = Some (foldr Z.mul 1 ch mod PRIME_P) /\
  (forall i j pos,
      (i < j < n)%nat ->
      (2 * pos + (i + 1) * (i + 2) = 2 * (i * n + j))%nat ->
      buildS ch !! (1 + pos)%nat = Some (modP (nth i ch 0 * nth j ch 0))) /\
  (forall i,
      (i < n)%nat ->
      buildS ch !! (1 + n * (n - 1) / 2 + i)%nat = Some (nth i ch 0)) /\
  buildS ch !! (1 + n * (n - 1) / 2 + n)%nat = Some 1.
Proof.
  intros n. unfold buildS.
  assert (Hlen : length (pairwise ch) = (n * (n - 1) / 2)%nat)
    by apply pairwise_length.
  set (T := (n * (n - 1) / 2)%nat) in *.
  split; [|split; [|split]].
  - simpl. now rewrite prodAll_fieldProduct.
  - intros i j pos Hij Hpos.
    change ((pairwise ch ++ ch ++ [1])%list !! pos
            = Some (modP (nth i ch 0 * nth j ch 0))).
    apply lookup_app_l_Some. now apply pairwise_lookup.
  - intros i Hi.
    change ((pairwise ch ++ ch ++ [1])%list !! (T + i)%nat = Some (nth i ch 0)).
    rewrite lookup_app_r by lia. rewrite Hlen.
    replace (T + i - T)%nat with i by lia.
    apply lookup_app_l_Some. now apply lookup_nth_lt.
  - change ((pairwise ch ++ ch ++ [1])%list !! (T + n)%nat = Some 1).
    rewrite lookup_app_r by lia. rewrite Hlen.
    replace (T + n - T)%nat with n by lia.
    rewrite lookup_app_r by (fold n; lia). fold n.
    now rewrite Nat.sub_diag.
Qed.

Lemma buildS_layout_witness :
  buildS [2; 3; 5; 7] !! 5%nat = Some (modP (3 * 7)) /\
  buildS [2; 3; 5; 7] !! 9%nat = Some 5.
Proof.
  destruct (buildS_layout [2; 3; 5; 7]) as (_ & Hpair & Hsingle & _).
  split.
  - apply (Hpair 1%nat 3%nat 4%nat); simpl; lia.
  - apply (Hsingle 2%nat). simpl. lia.
Defined.


(** ** The registry of authority keys *)

Lemma putBytes_lookup (k j bytes : string) (w : gmap string string) :
  putBytes k bytes w !! j =
    if decide (k = j)
    then (if Nat.eqb (String.length bytes) 0 then None else Some bytes)
    else w !! j.
Proof.
  unfold putBytes. destruct (Nat.eqb (String.length bytes) 0).
  - rewrite lookup_delete. now case_decide.
  - rewrite lookup_insert. now case_decide.
Qed.

Lemma putBytes_twice (k b1 b2 : string) (w : gmap string string) :
  putBytes k b2 (putBytes k b1 w) = putBytes k b2 w.
Proof.
  apply map_eq. intros j. rewrite !putBytes_lookup.
  case_decide; reflexivity.
Qed.

Lemma putBytes_size (k bytes : string) (w : gmap string string) :
  (size (putBytes k bytes w) <= S (size w))%nat.
Proof.
  unfold putBytes. destruct (Nat.eqb (String.length bytes) 0).
  - rewrite map_size_delete. destruct (w !! k); simpl; lia.
  - rewrite map_size_insert. destruct (w !! k); simpl; lia.
Qed.

Lemma putBytes_nonempty (k bytes : string) (w : gmap string string) :
  bytes <> "" -> putBytes k bytes w = <[k := bytes]> w.
Proof. intros H. unfold putBytes. destruct bytes; [congruence|reflexivity]. Qed.

(** X20. For a non-empty index, a payload written by [CreatePKCH] is what
    [ReadPKCH] returns for that index, byte for byte, unless it is empty: an
    empty payload is accepted by [CreatePKCH] and then reads as a missing
    entry. *)
Theorem CreatePKCH_ReadPKCH (index pkCHJson : string)
    (w : gmap string string) :
  index <> "" ->
  (pkCHJson <> "" ->
   ReadPKCH index (snd (CreatePKCH index pkCHJson w)) = Some pkCHJson) /\
  ReadPKCH index (snd (CreatePKCH index "" w)) = None.
Proof.
  intros _. unfold ReadPKCH, CreatePKCH. cbn [snd].
  rewrite !putBytes_lookup. rewrite !decide_True by reflexivity.
  split; [|reflexivity].
  intros Hne. destruct pkCHJson; [congruence|reflexivity].
Qed.

Lemma CreatePKCH_ReadPKCH_witness :
  ReadPKCH "AA1" (snd (CreatePKCH "AA1" "{}" ∅)) = Some "{}".
Proof.
  apply (proj1 (CreatePKCH_ReadPKCH "AA1" "{}" ∅ ltac:(discriminate))).
  discriminate.
Defined.

(** X21. The registry is an overwrite keyed by the index, here non-empty:
    a second [CreatePKCH] for an index leaves what it alone would have
    left, so the calls for one index add at most one entry, and none when
    both payloads are non-empty; the entries of the other indices read as
    before. *)
Theorem CreatePKCH_overwrites (index pk1 pk2 : string)
    (w : gmap string string) :
  index <> "" ->
  let w1 := snd (CreatePKCH index pk1 w) in
  let w2 := snd (CreatePKCH index pk2 w1) in
  w2 = snd (CreatePKCH index pk2 w) /\
  (size w2 <= S (size w))%nat /\
  (pk1 <> "" -> pk2 <> "" -> size w2 = size w1) /\
  (forall index', index' <> index -> ReadPKCH index' w2 = ReadPKCH index' w).
Proof.
  intros _ w1 w2. unfold w2, w1, CreatePKCH. cbn [snd].
  rewrite putBytes_twice.
  split; [reflexivity|]. split; [apply putBytes_size|]. split.
  - intros H1 H2. rewrite !putBytes_nonempty by assumption.
    rewrite !map_size_insert.
    destruct (w !! createCompositeKey "PKCH" [index]); reflexivity.
  - intros index' Hne. unfold ReadPKCH. rewrite putBytes_lookup.
    rewrite decide_False
      by (intros E; apply Hne; symmetry; exact (key1_inj _ _ _ E)).
    reflexivity.
Qed.

Lemma CreatePKCH_overwrites_witness :
  let w1 := snd (CreatePKCH "AA1" "{}" ∅) in
  let w2 := snd (CreatePKCH "AA1" "[]" w1) in
  w2 = snd (CreatePKCH "AA1" "[]" ∅) /\
  (size w2 <= S (size (∅ : gmap string string)))%nat /\
  ("{}" <> "" -> "[]" <> "" -> size w2 = size w1) /\
  (forall index', index' <> "AA1" -> ReadPKCH index' w2 = ReadPKCH index' ∅).
Proof.
  exact (CreatePKCH_overwrites "AA1" "{}" "[]" ∅ ltac:(discriminate)).
Defined.

(** ** The user records *)

(** X22. [CreateUser] registers a user of non-empty id once: on a ledger
    without the user it succeeds and stores the record; any later call for
    that user throws the already-exists error and leaves the ledger as it
    is. *)
Theorem CreateUser_once (u : string) (w : gmap string string) :
  u <> "" ->
  w !! createCompositeKey "USER" [u] = None ->
  exists w1,
    CreateUser u w = (Ok u, w1) /\
    w1 !! createCompositeKey "USER" [u] = Some u /\
    CreateUser u w1 = (Err (UserExists u), w1).
Proof.
  intros _ Hfree. unfold CreateUser. rewrite Hfree.
  eexists. split; [reflexivity|].
  rewrite lookup_insert_eq. split; reflexivity.
Qed.

Lemma CreateUser_once_witness :
  exists w1,
    CreateUser "alice" ∅ = (Ok "alice", w1) /\
    w1 !! createCompositeKey "USER" ["alice"] = Some "alice" /\
    CreateUser "alice" w1 = (Err (UserExists "alice"), w1).
Proof. exact (CreateUser_once "alice" ∅ ltac:(discriminate) eq_refl). Defined.

(** X23. Users are registered independently: creating one user neither
    creates nor blocks another, whose [CreateUser] returns what it would
    have returned before. *)
Theorem CreateUser_other (u u' : string) (w : gmap string string) :
  u <> u' ->
  fst (CreateUser u' (snd (CreateUser u w))) = fst (CreateUser u' w).
Proof.
  intros Hne. unfold CreateUser.
  destruct (w !! createCompositeKey "USER" [u]); cbn [snd]; [reflexivity|].
  rewrite lookup_insert_ne by (intros E; apply Hne; exact (key1_inj _ _ _ E)).
  destruct (w !! createCompositeKey "USER" [u']); reflexivity.
Qed.

Lemma CreateUser_other_witness :
  fst (CreateUser "bob" (snd (CreateUser "alice" ∅))) = fst (CreateUser "bob" ∅).
Proof. apply (CreateUser_other "alice" "bob" ∅). discriminate. Defined.

(** ** From the attribute channel to a decision *)

Lemma CreateUserVec_ok_length (localeCompare : string -> string -> Z)
    (u : string) (w w1 : gmap string document) (rec : UserVec)
    (docs : list document) :
  GetHiddenAttributes u w = (Ok docs, w) ->
  CreateUserVec localeCompare u w = (Ok rec, w1) ->
  exists vs,
    vecS rec = map toString vs /\
    Forall (fun v => 0 <= v < PRIME_P) vs /\
    length vs
      = (2 + length docs + length docs * (length docs - 1) / 2)%nat.
Proof.
  rewrite GetHiddenAttributes_entries. intros [= <-].
  rewrite CreateUserVec_unfold.
  destruct (map snd _) as [|d ds] eqn:Hdocs; [intros [=]|].
  destruct (asAttrs (d :: ds)) as [attrs|] eqn:Hattrs; [|intros [=]].
  destruct (mapBigInt _) as [raw|] eqn:Hraw; [|intros [=]].
  intros [= <- _]. exists (buildS (map modP raw)).
  split; [reflexivity|]. split; [apply buildS_in_range|].
  rewrite buildS_length, length_map.
  apply mapBigInt_length in Hraw. rewrite Hraw, length_map.
  unfold sortByCategory. rewrite sort_length.
  now rewrite (asAttrs_length _ _ Hattrs).
Qed.

(** X24. A vector computed by [CreateUserVec] for a user with [n]
    attributes and stored with [StoreUserVec] can only be decided against a
    policy vector of [2 + n + n(n-1)/2] elements: for non-empty user and
    object ids, with such a policy [DecTest] succeeds, with any other it
    throws the length mismatch and writes nothing. *)
Theorem CreateUserVec_decides_by_dimension
    (localeCompare : string -> string -> Z) (ctx : TxContext)
    (u o owner c0' ac ck : string) (pStrs : list string) (P : list Z)
    (docs : list document) (rec : UserVec)
    (wAttr wAttr1 wPub : gmap string document) :
  u <> "" ->
  o <> "" ->
  GetHiddenAttributes u wAttr = (Ok docs, wAttr) ->
  CreateUserVec localeCompare u wAttr = (Ok rec, wAttr1) ->
  mapBigInt pStrs = Ok P ->
  let n := length docs in
  let w2 := snd ((StoreUserVec u (vecS rec);;
                  CreateVec o owner pStrs c0' ac ck) wPub) in
  (length P = (2 + n + n * (n - 1) / 2)%nat ->
   exists a w3, DecTest ctx o u w2 = (Ok a, w3)) /\
  (length P <> (2 + n + n * (n - 1) / 2)%nat ->
   DecTest ctx o u w2
     = (Err (LengthMismatch (2 + n + n * (n - 1) / 2) (length P)), w2)).
Proof.
  intros _ _ Hscan Hrun HP n w2.
  destruct (CreateUserVec_ok_length localeCompare u wAttr wAttr1 rec docs
              Hscan Hrun) as (vs & HS & Hrange & Hlen).
  fold n in Hlen.
  assert (Hw2 : DecTest ctx o u w2 =
            match innerProductMod vs (map modP P) with
            | Ok ip =>
                (Ok (decisionRecord ctx o u ip),
                 <[lastKeyOf o u := DocAccess (decisionRecord ctx o u ip)]>
                   (<[histKeyOf ctx o u :=
                        DocAccess (decisionRecord ctx o u ip)]> w2))
            | Err e => (Err e, w2)
            end).
  { unfold w2. rewrite Tx_seq.
    rewrite (StoreUserVec_run u (vecS rec) vs wPub)
      by (rewrite HS; apply mapBigInt_toString).
    rewrite (CreateVec_run o owner c0' ac ck pStrs P _ HP). cbn [snd].
    apply (DecTest_run ctx o u _
             {| vecUserId := u;
                vecS := map (fun v => toString (modP v)) vs |}
             {| metaObjectId := o; metaOwnerId := owner;
                policyVector := map (fun v => toString (modP v)) P;
                c0 := c0'; addressCipher := ac; ctKeyPart := ck |}).
    - rewrite lookup_insert_ne by apply key_DATA_ne_S.
      apply lookup_insert_eq.
    - apply lookup_insert_eq.
    - cbn [vecS]. rewrite (map_toString_modP_small vs Hrange).
      apply mapBigInt_toString.
    - apply mapBigInt_normalized. }
  rewrite Hw2. split; intros HlenP.
  - rewrite innerProductMod_spec by (rewrite length_map; lia).
    eexists _, _. reflexivity.
  - rewrite innerProductMod_mismatch by (rewrite length_map; lia).
    now rewrite length_map, Hlen.
Qed.

Lemma CreateUserVec_decides_by_dimension_witness :
  let w2 := snd ((StoreUserVec "bob"
                    ["1001000"; "1001000"; "1000"; "1001"; "1"];;
                  CreateVec "doc1" "owner1" ["1"; "2"; "3"; "4"]
                    "a" "b" "c") ∅) in
  DecTest exampleCtx "doc1" "bob" w2 = (Err (LengthMismatch 5 4), w2).
Proof.
  intros w2.
  apply (proj2 (CreateUserVec_decides_by_dimension codeUnitCompare exampleCtx
                  "bob" "doc1" "owner1" "a" "b" "c" ["1"; "2"; "3"; "4"]
                  [1; 2; 3; 4]
                  [DocAttr {| userId := "bob"; category := "c0";
                              chValue := "1000"; rValue := "2000";
                              aaenId := "AA1" |};
                   DocAttr {| userId := "bob"; category := "c1";
                              chValue := "1001"; rValue := "2001";
                              aaenId := "AA1" |}]
                  {| vecUserId := "bob";
                     vecS := ["1001000"; "1001000"; "1000"; "1001"; "1"] |}
                  exampleAttrLedger
                  (snd (CreateUserVec codeUnitCompare "bob" exampleAttrLedger))
                  ∅ ltac:(discriminate) ltac:(discriminate)
                  ltac:(vm_compute; reflexivity)
                  ltac:(vm_compute; reflexivity) eq_refl)).
  vm_compute. discriminate.
Defined.
